(** * Scene timeline pipeline: a shallow embedding of
      [analysis_pipeline.py] and [tasks.py]

    Conventions of the embedding.
    - Python [str] is [string]; a caption list is [list string].
    - Python [int] used as an index or a counter is [nat]; an [int] that
      can be negative ([max_gap], the index returned by
      [representative_caption]) is [Z].
    - Python [float] is modelled by an exact rational [Q]: every float
      literal of the program and of the examples is taken at its decimal
      value, [/] is exact division and [<=] is [Qle_bool].  Rounding is
      modelled where the code adds floats up, in the score loop of
      [representative_caption]: there every float is rounded to binary64
      by [float64], since the order of the additions decides the last
      place of a sum and with it the position [max] returns.
    - A raised exception is the [Err] outcome of a [result]. *)

From Stdlib Require Import ZArith QArith Qround Lia Lqa String Ascii Sorted.
From stdpp Require Import base option list gmap strings.

Open Scope nat_scope.

(** ** Outcomes: a returned value or a raised exception *)

Inductive exn : Type :=
  | ZeroDivisionError
  | OSError (msg : string)
  | Exception (msg : string).

Inductive result (T : Type) : Type :=
  | Ok (v : T)
  | Err (e : exn).
Arguments Ok {T} v.
Arguments Err {T} e.

#[global] Instance result_ret : MRet result := fun T v => Ok v.
#[global] Instance result_bind : MBind result := fun T U f m =>
  match m with
  | Ok v => f v
  | Err e => Err e
  end.

(** [str(e)] of the handlers. *)
Definition str_of_exn (e : exn) : string :=
  match e with
  | ZeroDivisionError => "float division by zero"
  | OSError msg => msg
  | Exception msg => msg
  end.

(** ** [difflib.SequenceMatcher(None, a, b)]

    [similar] is a one-line call into Python's [difflib]; the matcher is
    modelled here as the library computes it with [isjunk = None] and
    [autojunk = True]: the index [b2j] of [b] without its popular
    elements, [find_longest_match] with its tie-breaking and its four
    extension loops, the recursion of [get_matching_blocks] on the
    unmatched left and right remainders, and [ratio]. *)

Module Difflib.
Section SequenceMatcher.
Context {A : Type} `{EqDecision A}.
Variables a b : list A.

(** Positions of [x] in [l], ascending, the first position numbered [j]:
    the list [b2j[x]] that [__chain_b] builds with [enumerate(b)]. *)
Fixpoint indices_from (x : A) (l : list A) (j : nat) : list nat :=
  match l with
  | [] => []
  | y :: l' =>
      if decide (y = x) then j :: indices_from x l' (S j)
      else indices_from x l' (S j)
  end.

(** [if self.autojunk and n >= 200: ntest = n // 100 + 1] and an element
    with [len(idxs) > ntest] is popular. *)
Definition popular (x : A) : bool :=
  (200 <=? length b) && (length b / 100 + 1 <? length (indices_from x b 0)).

(** [b2j.get(x, nothing)] after the popular elements were deleted. *)
Definition b2j_get (x : A) : list nat :=
  if popular x then [] else indices_from x b 0.

(** [isjunk] is [None]: the junk set is empty. *)
Definition isbjunk (x : A) : bool := false.

(** [j2len.get(j-1, 0)]; for [j = 0] the key [-1] is never present. *)
Definition j2lenget (j2len : gmap nat nat) (j : nat) : nat :=
  match j with
  | 0 => 0
  | S j' => default 0 (j2len !! j')
  end.

(** The inner loop [for j in b2j.get(a[i], nothing)] of
    [find_longest_match]: [continue] below [blo], [break] from [bhi] on.
    [i-k+1] is written [i+1-k]; [k <= i+1] holds there, see
    [scan_row_bounds]. *)
Fixpoint scan_row (i blo bhi : nat) (js : list nat) (j2len newj2len : gmap nat nat)
    (best : nat * nat * nat) : gmap nat nat * (nat * nat * nat) :=
  match js with
  | [] => (newj2len, best)
  | j :: js' =>
      if j <? blo then scan_row i blo bhi js' j2len newj2len best
      else if bhi <=? j then (newj2len, best)
      else
        let k := j2lenget j2len j + 1 in
        let newj2len' := <[j := k]> newj2len in
        let best' := if best.2 <? k then (i + 1 - k, j + 1 - k, k) else best in
        scan_row i blo bhi js' j2len newj2len' best'
  end.

(** The outer loop [for i in range(alo, ahi)]. *)
Fixpoint scan_rows (rows : list nat) (blo bhi : nat) (j2len : gmap nat nat)
    (best : nat * nat * nat) : nat * nat * nat :=
  match rows with
  | [] => best
  | i :: rows' =>
      let js := match a !! i with Some x => b2j_get x | None => [] end in
      let '(newj2len, best') := scan_row i blo bhi js j2len ∅ best in
      scan_rows rows' blo bhi newj2len best'
  end.

(** [a[x] == b[y]] for positions inside the sequences. *)
Definition same_at (x y : nat) : bool :=
  match a !! x, b !! y with
  | Some u, Some v => bool_decide (u = v)
  | _, _ => false
  end.

(** [isbjunk(b[y])]. *)
Definition junk_at (y : nat) : bool :=
  match b !! y with
  | Some v => isbjunk v
  | None => false
  end.

(** [while besti > alo and bestj > blo and (not) isbjunk(b[bestj-1]) and
    a[besti-1] == b[bestj-1]]: one step to the left per iteration.
    [junk] selects the loop over non-junk ([false]) or junk ([true])
    elements. *)
Fixpoint extend_left (junk : bool) (alo blo besti bestj bestsize : nat)
    : nat * nat * nat :=
  match besti, bestj with
  | S i', S j' =>
      if (alo <? besti) && (blo <? bestj)
         && eqb (junk_at j') junk && same_at i' j'
      then extend_left junk alo blo i' j' (bestsize + 1)
      else (besti, bestj, bestsize)
  | _, _ => (besti, bestj, bestsize)
  end.

(** [while besti+bestsize < ahi and bestj+bestsize < bhi and (not)
    isbjunk(b[bestj+bestsize]) and a[besti+bestsize] == b[bestj+bestsize]];
    [steps] bounds the iterations, [ahi - (besti+bestsize)] is enough. *)
Fixpoint extend_right (junk : bool) (steps ahi bhi besti bestj bestsize : nat)
    : nat * nat * nat :=
  match steps with
  | 0 => (besti, bestj, bestsize)
  | S steps' =>
      if (besti + bestsize <? ahi) && (bestj + bestsize <? bhi)
         && eqb (junk_at (bestj + bestsize)) junk
         && same_at (besti + bestsize) (bestj + bestsize)
      then extend_right junk steps' ahi bhi besti bestj (bestsize + 1)
      else (besti, bestj, bestsize)
  end.

Definition find_longest_match (alo ahi blo bhi : nat) : nat * nat * nat :=
  let best0 := (alo, blo, 0) in
  let '(i1, j1, k1) := scan_rows (seq alo (ahi - alo)) blo bhi ∅ best0 in
  let '(i2, j2, k2) := extend_left false alo blo i1 j1 k1 in
  let '(i3, j3, k3) := extend_right false (ahi - (i2 + k2)) ahi bhi i2 j2 k2 in
  let '(i4, j4, k4) := extend_left true alo blo i3 j3 k3 in
  extend_right true (ahi - (i4 + k4)) ahi bhi i4 j4 k4.

(** [get_matching_blocks]: the work queue of the library is unfolded as
    a recursion on the left and on the right remainder of every match;
    the blocks come out in the order the library sorts them into.
    [fuel] bounds the depth; [ahi - alo] is enough, see
    [matching_blocks_fuel]. *)
Fixpoint matching_blocks (fuel alo ahi blo bhi : nat) : list (nat * nat * nat) :=
  match fuel with
  | 0 => []
  | S fuel' =>
      let '(i, j, k) := find_longest_match alo ahi blo bhi in
      if k =? 0 then []
      else
        (if (alo <? i) && (blo <? j)
         then matching_blocks fuel' alo i blo j else [])
        ++ (i, j, k)
        :: (if (i + k <? ahi) && (j + k <? bhi)
            then matching_blocks fuel' (i + k) ahi (j + k) bhi else [])
  end.

Definition get_matching_blocks : list (nat * nat * nat) :=
  matching_blocks (length a) 0 (length a) 0 (length b).

(** [sum(triple[-1] for triple in self.get_matching_blocks())]; the
    closing block [(la, lb, 0)] and the merge of adjacent blocks leave
    the sum unchanged. *)
Definition matches : nat :=
  foldr (fun blk acc => blk.2 + acc) 0 get_matching_blocks.

(** [_calculate_ratio(matches, len(a) + len(b))]. *)
Definition ratio : Q :=
  let total := length a + length b in
  if total =? 0 then 1%Q
  else (inject_Z (2 * Z.of_nat matches) / inject_Z (Z.of_nat total))%Q.

End SequenceMatcher.
End Difflib.

(** ** [analysis_pipeline.py] *)

(** [similar(a, b)]: [SequenceMatcher(None, a, b).ratio()]. *)
Definition similar (a b : string) : Q :=
  Difflib.ratio (list_ascii_of_string a) (list_ascii_of_string b).


(** [x >= threshold] and [x > y] on floats. *)
Definition Qltb (x y : Q) : bool := negb (Qle_bool y x).

(** [idx / fps]: float division raises [ZeroDivisionError] on [fps = 0.0]. *)
Definition div_fps (idx : nat) (fps : Q) : result Q :=
  if Qeq_bool fps 0 then Err ZeroDivisionError
  else Ok (inject_Z (Z.of_nat idx) / fps)%Q.

(** [captions[i]] for an index the loops keep in range. *)
Definition item (l : list string) (i : nat) : string := default "" (l !! i).

(** A scene as [categorize_scenes] emits it. *)
Record scene : Type := Scene {
  captions : list string;
  start_time : Q;
  end_time : Q;
}.

(** The dict [current] of [categorize_scenes]. *)
Record open_scene : Type := OpenScene {
  cur_captions : list string;
  start_idx : nat;
  end_idx : nat;
  anchor : string;
  gap : Z;
}.

(** The dict literal appended to [scenes]. *)
Definition close_scene (fps : Q) (current : open_scene) : result scene :=
  st ← div_fps (start_idx current) fps;
  et ← div_fps (end_idx current) fps;
  Ok (Scene (cur_captions current) st et).

(** The body of [for i in range(1, len(captions))], over the indices
    still to visit. *)
Fixpoint scene_loop (caps : list string) (threshold : Q) (max_gap : Z) (fps : Q)
    (idxs : list nat) (scenes : list scene) (current : open_scene)
    : result (list scene * open_scene) :=
  match idxs with
  | [] => Ok (scenes, current)
  | i :: idxs' =>
      let curr := item caps i in
      let prev := item caps (i - 1) in
      if Qle_bool threshold (similar curr prev)
         || Qle_bool threshold (similar curr (anchor current))
      then
        scene_loop caps threshold max_gap fps idxs' scenes
          (OpenScene (cur_captions current ++ [curr]) (start_idx current)
                     (i + 1) (anchor current) 0)
      else if (gap current <? max_gap)%Z then
        (* tolerate an outlier without splitting *)
        scene_loop caps threshold max_gap fps idxs' scenes
          (OpenScene (cur_captions current ++ [curr]) (start_idx current)
                     (i + 1) (anchor current) (gap current + 1))
      else
        (* finish current scene, start new scene *)
        s ← close_scene fps current;
        scene_loop caps threshold max_gap fps idxs' (scenes ++ [s])
          (OpenScene [curr] i (i + 1) curr 0)
  end.

Definition categorize_scenes (caps : list string) (threshold : Q) (max_gap : Z)
    (fps : Q) : result (list scene) :=
  match caps with
  | [] => Ok []
  | c0 :: _ =>
      '(scenes, current) ←
        scene_loop caps threshold max_gap fps (seq 1 (length caps - 1)) []
          (OpenScene [c0] 0 1 c0 0);
      (* final scene *)
      s ← close_scene fps current;
      Ok (scenes ++ [s])
  end.

(** ** Python floats

    A float is the rational it stands for.  Where the code adds floats
    the result of every operation is rounded as the machine rounds it:
    to the nearest binary64 number, a tie going to the even significand.
    Numbers below [2 ^ -1022] in size are rounded on the grid of the
    subnormal numbers; nothing the code computes here reaches the size
    at which binary64 overflows. *)

(** [2 ^ e] for an integer [e] of either sign. *)
Definition pow2 (e : Z) : Q :=
  if (0 <=? e)%Z then inject_Z (2 ^ e) else / inject_Z (2 ^ (- e)).

(** The integer nearest to [m], the even one of the two when [m] lies
    half way. *)
Definition round_half_even (m : Q) : Z :=
  let q := Qfloor m in
  match (m - inject_Z q ?= 1 # 2)%Q with
  | Lt => q
  | Eq => if Z.even q then q else (q + 1)%Z
  | Gt => (q + 1)%Z
  end.

(** The exponent of the last place of the significand of [x > 0]:
    [floor (log2 x) - 52], and -1074 for the subnormal numbers. *)
Definition float_exponent (x : Q) : Z :=
  let lg := if Qle_bool 1 x then Z.log2 (Qfloor x)
            else (- Z.log2_up (Qceiling (/ x)))%Z in
  Z.max (lg - 52) (-1074).

(** The binary64 number that [x] is rounded to. *)
Definition float64 (x : Q) : Q :=
  match (x ?= 0)%Q with
  | Eq => 0%Q
  | Gt => let e := float_exponent x in
          (inject_Z (round_half_even (x / pow2 e)) * pow2 e)%Q
  | Lt => let e := float_exponent (- x) in
          (- (inject_Z (round_half_even (- x / pow2 e)) * pow2 e))%Q
  end.

(** The inner loop [for j in range(n)] of [representative_caption], with
    its accumulator [s].  [similar] gives the exact quotient [2 M / T];
    the float the code adds is that quotient rounded ([2.0 * matches /
    length] is one rounded division), and [s += ...] rounds the sum. *)
Fixpoint score_inner (caps : list string) (ai : string) (i : nat) (js : list nat)
    (s : Q) : Q :=
  match js with
  | [] => s
  | j :: js' =>
      if i =? j then score_inner caps ai i js' s
      else score_inner caps ai i js' (float64 (s + float64 (similar ai (item caps j))))
  end.

(** The outer loop [for i in range(n)], writing [scores[i] = s]. *)
Fixpoint score_outer (caps : list string) (rows : list nat) (scores : list Q)
    : list Q :=
  match rows with
  | [] => scores
  | i :: rows' =>
      let s := score_inner caps (item caps i) i (seq 0 (length caps)) 0%Q in
      score_outer caps rows' (<[i := s]> scores)
  end.

(** [max(iterable, key=...)]: the running maximum is replaced only by an
    item whose key is strictly greater. *)
Fixpoint max_key (key : nat → Q) (best : nat) (rest : list nat) : nat :=
  match rest with
  | [] => best
  | x :: rest' =>
      if Qltb (key best) (key x) then max_key key x rest'
      else max_key key best rest'
  end.

Definition representative_caption (caps : list string) : string * Z * list Q :=
  let n := length caps in
  if n =? 0 then ("", (-1)%Z, [])
  else if n =? 1 then (item caps 0, 0%Z, [1%Q])
  else
    let scores := score_outer caps (seq 0 n) (replicate n 0%Q) in
    let best_i := max_key (fun i => default 0%Q (scores !! i)) 0 (seq 1 (n - 1)) in
    (item caps best_i, Z.of_nat best_i, scores).

(** A transcript segment [{"start", "end", "text"}]. *)
Record segment : Type := Segment {
  seg_start : Q;
  seg_end : Q;
  seg_text : string;
}.

(** An entry of [combined]. *)
Record combined_scene : Type := CombinedScene {
  cs_start_time : Q;
  cs_end_time : Q;
  description : string;
  dialogue : list string;
}.

(** The condition of the comprehension: two chained comparisons. *)
Definition within_scene (sc : scene) (seg : segment) : bool :=
  (Qle_bool (start_time sc) (seg_start seg) && Qle_bool (seg_start seg) (end_time sc))
  && (Qle_bool (start_time sc) (seg_end seg) && Qle_bool (seg_end seg) (end_time sc)).

(** [[seg["text"] for seg in transcript_segments if ...]]. *)
Fixpoint scene_dialogue (sc : scene) (segs : list segment) : list string :=
  match segs with
  | [] => []
  | seg :: segs' =>
      if within_scene sc seg then seg_text seg :: scene_dialogue sc segs'
      else scene_dialogue sc segs'
  end.

Fixpoint combine_scenes_with_transcript (scenes : list scene) (segs : list segment)
    : list combined_scene :=
  match scenes with
  | [] => []
  | sc :: scenes' =>
      let rep := (representative_caption (captions sc)).1.1 in
      CombinedScene (start_time sc) (end_time sc) rep (scene_dialogue sc segs)
      :: combine_scenes_with_transcript scenes' segs
  end.

(** An entry of the list [analyze_emotions] returns; [error] is the key
    only the handler sets. *)
Record emotion_sample : Type := EmotionSample {
  time : Q;
  dominant_emotion : string;
  emotion_scores : gmap string Q;
  num_faces : nat;
  error : option string;
}.

#[global] Instance emotion_sample_inhabited : Inhabited emotion_sample :=
  populate (EmotionSample 0%Q "" ∅ 0 None).

(** [np.arange(0, stop, step)]: [ceil(stop / step)] values [i * step]. *)
Definition np_arange (stop step : Q) : result (list Q) :=
  if Qeq_bool step 0 then Err (Exception "Maximum allowed size exceeded")
  else Ok (map (fun i => (inject_Z (Z.of_nat i) * step)%Q)
               (seq 0 (Z.to_nat (Qceiling (stop / step))))).

(** The collaborators [analysis_pipeline.py] calls into: speech
    transcription, frame sampling, captioning, the video clip reader and
    the emotion classifier.  Each is a function of its arguments that
    returns or raises. *)
Section Collaborators.
Context {Frame Image : Type}.

(** The dict [transcribe_with_whisper] returns. *)
Record transcript : Type := Transcript {
  segments : list segment;
  text : string;
  language : string;
}.

(** A [moviepy] clip: its duration and [clip.get_frame(t)]. *)
Record clip : Type := Clip {
  duration : Q;
  get_frame : Q → result Frame;
}.

Record collaborators : Type := Collaborators {
  transcribe_with_whisper : string → result transcript;
  extract_frames : string → Q → result (list Frame);
  caption_frames : list Frame → result (list string);
  (** [get_emotion_model()] *)
  get_emotion_model : result unit;
  (** [mp.VideoFileClip(video_path)] *)
  VideoFileClip : string → result clip;
  (** [frame.shape], [cv2.resize] and [Image.fromarray]: the statements
      of the loop body before the [try] *)
  resize_to_image : Frame → result Image;
  (** the body of the [try]: processor, model, softmax and labels,
      giving [dominant] and [scores] *)
  classify : Image → result (string * gmap string Q);
}.

Variable env : collaborators.

(** [for t in tqdm(times)]: the frame is fetched and resized before the
    [try]; only the classification is guarded by [except Exception]. *)
Fixpoint emotion_loop (c : clip) (times : list Q) (emotions : list emotion_sample)
    : result (list emotion_sample) :=
  match times with
  | [] => Ok emotions
  | t :: times' =>
      frame ← get_frame c t;
      image ← resize_to_image env frame;
      let sample :=
        match classify env image with
        | Ok (dominant, scores) => EmotionSample t dominant scores 1 None
        | Err e => EmotionSample t "error" ∅ 0 (Some (str_of_exn e))
        end in
      emotion_loop c times' (emotions ++ [sample])
  end.

Definition analyze_emotions (video_path : string) (sample_rate : Q)
    : result (list emotion_sample) :=
  _ ← get_emotion_model env;
  c ← VideoFileClip env video_path;
  times ← np_arange (duration c) sample_rate;
  emotion_loop c times [].
End Collaborators.
Arguments transcript : clear implicits.
Arguments clip : clear implicits.
Arguments collaborators : clear implicits.

(** [str.isspace] on the code points below 256: what [str.strip()]
    removes. *)
Definition isspace (c : ascii) : bool :=
  let n := nat_of_ascii c in
  ((9 <=? n) && (n <=? 13)) || ((28 <=? n) && (n <=? 32)) || (n =? 133) || (n =? 160).

Fixpoint lstrip (s : string) : string :=
  match s with
  | EmptyString => EmptyString
  | String c s' => if isspace c then lstrip s' else s
  end.

Fixpoint rstrip (s : string) : string :=
  match s with
  | EmptyString => EmptyString
  | String c s' =>
      match rstrip s' with
      | EmptyString => if isspace c then EmptyString else String c EmptyString
      | r => String c r
      end
  end.

(** [s.strip()] *)
Definition strip (s : string) : string := rstrip (lstrip s).

(** [s.split(sep)] for a non-empty [sep]: the occurrences of [sep] are
    found left to right without overlap.  [skip] counts the characters of
    a found separator still to drop, [piece] is the piece being read. *)
Fixpoint split_from (sep : string) (skip : nat) (piece s : string) : list string :=
  match s with
  | EmptyString => [piece]
  | String c s' =>
      match skip with
      | S skip' => split_from sep skip' piece s'
      | 0 =>
          if String.prefix sep s
          then piece :: split_from sep (String.length sep - 1) EmptyString s'
          else split_from sep 0 (piece +:+ String c EmptyString) s'
      end
  end.

Definition split (sep s : string) : list string := split_from sep 0 EmptyString s.

(** An entry of [merged]. *)
Record merged_unit : Type := MergedUnit {
  mu_text : string;
  mu_emotion : string;
  mu_emotion_scores : gmap string Q;
  mu_time : option Q;
}.

(** [[s.strip() for s in pieces if s.strip()]]: a non-empty string is
    true. *)
Fixpoint stripped_nonempty (pieces : list string) : list string :=
  match pieces with
  | [] => []
  | s :: pieces' =>
      if bool_decide (strip s = EmptyString) then stripped_nonempty pieces'
      else strip s :: stripped_nonempty pieces'
  end.

(** [for i, line in enumerate(sentences)], from position [i] on. *)
Fixpoint merge_loop (emotions : list emotion_sample) (i : nat) (sentences : list string)
    (merged : list merged_unit) : list merged_unit :=
  match sentences with
  | [] => merged
  | line :: sentences' =>
      let unit :=
        MergedUnit line
          (if i <? length emotions then dominant_emotion (emotions !!! i) else "neutral")
          (if i <? length emotions then emotion_scores (emotions !!! i) else ∅)
          (if i <? length emotions then Some (time (emotions !!! i)) else None) in
      merge_loop emotions (S i) sentences' (merged ++ [unit])
  end.

Definition merge_text_and_emotions (transcript_text : string)
    (emotions : list emotion_sample) : list merged_unit :=
  let sentences := stripped_nonempty (split ". " transcript_text) in
  merge_loop emotions 0 sentences [].

(** ** [tasks.py] *)

(** What a run does to the outside: a progress record stored by
    [self.update_state], and a call of [os.remove]. *)
Inductive event : Type :=
  | Progress (percent : Z) (step : string)
  | Remove (path : string).

(** The outside of a run: the stored files, the files the system refuses
    to remove, and the events so far, oldest first. *)
Record world : Type := World {
  files : gset string;
  locked : gset string;
  trace : list event;
}.

(** A statement of the task: it changes the world and returns or raises. *)
Definition task (T : Type) : Type := world → result T * world.

Definition task_ret {T : Type} (v : T) : task T := fun w => (Ok v, w).

Definition task_bind {T U : Type} (m : task T) (f : T → task U) : task U :=
  fun w =>
    match m w with
    | (Ok v, w') => f v w'
    | (Err e, w') => (Err e, w')
    end.

Notation "x <- m ;; k" := (task_bind m (fun x => k))
  (at level 100, m at next level, right associativity, only parsing).
Notation "m ;;; k" := (task_bind m (fun _ => k))
  (at level 100, right associativity, only parsing).

(** A call that does not touch the world. *)
Definition call {T : Type} (r : result T) : task T := fun w => (r, w).

(** [try: body finally: cleanup]: [cleanup] runs after [body] however it
    ends; an exception of [cleanup] replaces the outcome of [body]. *)
Definition try_finally {T : Type} (body : task T) (cleanup : task unit) : task T :=
  fun w =>
    let '(r, w1) := body w in
    match cleanup w1 with
    | (Ok _, w2) => (r, w2)
    | (Err e, w2) => (Err e, w2)
    end.

(** [try: m except OSError: pass] *)
Definition except_OSError_pass (m : task unit) : task unit :=
  fun w =>
    match m w with
    | (Err (OSError _), w') => (Ok tt, w')
    | other => other
    end.

(** [os.remove(path)]: recorded in the trace; it raises [OSError] when
    the file is missing or the system refuses. *)
Definition os_remove (path : string) : task unit :=
  fun w =>
    let w' := World (files w) (locked w) (trace w ++ [Remove path]) in
    if bool_decide (path ∈ files w) && negb (bool_decide (path ∈ locked w))
    then (Ok tt, World (files w ∖ {[path]}) (locked w) (trace w ++ [Remove path]))
    else (Err (OSError "cannot remove"), w').

(** The dict [result] of the task. *)
Record analysis : Type := Analysis {
  transcript_text : string;
  transcript_segments : list segment;
  frame_captions : list string;
  scenes : list scene;
  combined_scenes : list combined_scene;
  result_language : string;
  merged_text_emotions : list merged_unit;
}.

Section Task.
Context {Frame Image : Type}.
Variable env : collaborators Frame Image.

(** [self.update_state(state="PROGRESS", meta=...)]: the result backend
    stores the record or raises; [store] is that outcome. *)
Variable store : Z → string → result unit.

Definition update_state (percent : Z) (step : string) : task unit :=
  fun w =>
    match store percent step with
    | Ok _ => (Ok tt, World (files w) (locked w) (trace w ++ [Progress percent step]))
    | Err e => (Err e, w)
    end.

(** The [try] block of [process_video_task]. *)
Definition run_stages (video_path : string) : task analysis :=
  update_state 5 "starting analysis" ;;;
  update_state 20 "transcribing audio" ;;;
  t <- call (transcribe_with_whisper env video_path) ;;
  update_state 40 "extracting frames" ;;;
  frames <- call (extract_frames env video_path 1) ;;
  update_state 60 "captioning frames" ;;;
  caps <- call (caption_frames env frames) ;;
  update_state 70 "grouping scenes" ;;;
  scs <- call (categorize_scenes caps (6 # 10) 1 1) ;;
  update_state 80 "attaching dialogue" ;;;
  let combined := combine_scenes_with_transcript scs (segments t) in
  update_state 90 "analyzing emotions" ;;;
  emotions <- call (analyze_emotions env video_path 1) ;;
  let merged := merge_text_and_emotions (text t) emotions in
  let result :=
    Analysis (text t) (segments t) caps scs combined (language t) merged in
  update_state 100 "finalizing" ;;;
  task_ret result.

Definition process_video_task (video_path : string) : task analysis :=
  try_finally (run_stages video_path)
              (except_OSError_pass (os_remove video_path)).
End Task.

(** ** The wrappers of the external models in [analysis_pipeline.py]

    [get_whisper_model], [get_blip_models], [transcribe_with_whisper],
    [extract_frames], [caption_frames] and [analyze_video] as the file
    writes them, over the libraries they call.  The module-level
    variables that cache the models are the state [globals], passed
    through every call. *)

Module Wrappers.
Section Backends.
Context {Frame Whisper Processor Blip : Type}.

(** A segment as [faster_whisper] yields it: [s.start], [s.end],
    [s.text]. *)
Record raw_segment : Type := RawSegment {
  rs_start : Q;
  rs_end : Q;
  rs_text : string;
}.

(** An opened [cv2.VideoCapture]: [cap.isOpened()],
    [cap.get(cv2.CAP_PROP_FPS)] and the frames [cap.read()] returns
    before it reports the end. *)
Record capture : Type := Capture {
  isOpened : bool;
  CAP_PROP_FPS : Q;
  cap_frames : list Frame;
}.

(** The library calls of the wrappers. *)
Record backends : Type := Backends {
  (** [WhisperModel(model_size)] *)
  WhisperModel : string → result Whisper;
  (** [model.transcribe(video_path)] with its segments read to the end:
      the segments and [info.language] *)
  transcribe : Whisper → string → result (list raw_segment * string);
  (** [BlipProcessor.from_pretrained(...)] *)
  load_processor : result Processor;
  (** [BlipForConditionalGeneration.from_pretrained(...)] *)
  load_blip : result Blip;
  (** the body of the captioning loop: colour conversion, processor,
      [model.generate], [processor.decode] *)
  caption : Processor → Blip → Frame → result string;
  (** [cv2.VideoCapture(video_path)] *)
  VideoCapture : string → capture;
  (** [str(Path(video_path))] *)
  str_Path : string → string;
}.

(** The module-level variables [_WHISPER_MODEL], [_BLIP_PROCESSOR] and
    [_BLIP_MODEL]. *)
Record globals : Type := Globals {
  whisper_model : option Whisper;
  blip_processor : option Processor;
  blip_model : option Blip;
}.

Variable lib : backends.

Definition get_whisper_model (model_size : string) (g : globals)
    : result Whisper * globals :=
  match whisper_model g with
  | Some model => (Ok model, g)
  | None =>
      match WhisperModel lib model_size with
      | Ok model => (Ok model, Globals (Some model) (blip_processor g) (blip_model g))
      | Err e => (Err e, g)
      end
  end.

(** The processor is assigned before the model is loaded: when the
    second load raises, the first stays cached. *)
Definition get_blip_models (g : globals) : result (Processor * Blip) * globals :=
  match blip_processor g, blip_model g with
  | Some processor, Some model => (Ok (processor, model), g)
  | _, _ =>
      match load_processor lib with
      | Err e => (Err e, g)
      | Ok processor =>
          match load_blip lib with
          | Err e => (Err e, Globals (whisper_model g) (Some processor) (blip_model g))
          | Ok model =>
              (Ok (processor, model),
               Globals (whisper_model g) (Some processor) (Some model))
          end
      end
  end.

(** [for s in segments]: [seg_list] and [all_text_parts] grow together. *)
Fixpoint transcript_loop (segs : list raw_segment) (seg_list : list segment)
    (all_text_parts : list string) : list segment * list string :=
  match segs with
  | [] => (seg_list, all_text_parts)
  | s :: segs' =>
      transcript_loop segs'
        (seg_list ++ [Segment (rs_start s) (rs_end s) (rs_text s)])
        (all_text_parts ++ [rs_text s])
  end.

Definition transcribe_with_whisper (video_path model_size : string) (g : globals)
    : result transcript * globals :=
  match get_whisper_model model_size g with
  | (Err e, g') => (Err e, g')
  | (Ok model, g') =>
      match transcribe lib model video_path with
      | Err e => (Err e, g')
      | Ok (segs, lang) =>
          let '(seg_list, all_text_parts) := transcript_loop segs [] [] in
          (Ok (Transcript seg_list (String.concat "" all_text_parts) lang), g')
      end
  end.

(** [max(1, int(orig_fps // fps))], with [orig_fps] replaced by 30.0
    when the capture reports 0 or less. *)
Definition frame_interval (reported fps : Q) : nat :=
  let orig_fps := if Qeq_bool reported 0 then 30%Q else reported in
  let orig_fps := if Qle_bool orig_fps 0 then 30%Q else orig_fps in
  Z.to_nat (Z.max 1 (Qfloor (orig_fps / fps))).

(** The [while True] loop: every frame read is counted, the frames whose
    count is a multiple of the interval are kept. *)
Fixpoint read_loop (interval : nat) (to_read : list Frame) (frame_id : nat)
    (frames : list Frame) : list Frame :=
  match to_read with
  | [] => frames
  | frame :: to_read' =>
      if frame_id mod interval =? 0
      then read_loop interval to_read' (frame_id + 1) (frames ++ [frame])
      else read_loop interval to_read' (frame_id + 1) frames
  end.

Definition extract_frames (video_path : string) (fps : Q) : result (list Frame) :=
  let cap := VideoCapture lib video_path in
  if negb (isOpened cap)
  then Err (Exception ("Failed to open video: " +:+ video_path))
  else if Qeq_bool fps 0 then Err ZeroDivisionError
  else Ok (read_loop (frame_interval (CAP_PROP_FPS cap) fps) (cap_frames cap) 0 []).

(** [for f in frames]: one caption per frame, the first failure ends
    the loop. *)
Fixpoint caption_loop (processor : Processor) (model : Blip) (frames : list Frame)
    (captions : list string) : result (list string) :=
  match frames with
  | [] => Ok captions
  | f :: frames' =>
      c ← caption lib processor model f;
      caption_loop processor model frames' (captions ++ [c])
  end.

Definition caption_frames (frames : list Frame) (g : globals)
    : result (list string) * globals :=
  match frames with
  | [] => (Ok [], g)
  | _ :: _ =>
      match get_blip_models g with
      | (Err e, g') => (Err e, g')
      | (Ok (processor, model), g') => (caption_loop processor model frames [], g')
      end
  end.

(** [analyze_video]: the stages of the task without its progress
    records and its cleanup; the emotion stage is the one of
    [analyze_emotions], over [env]. *)
Definition analyze_video {Image : Type} (env : collaborators Frame Image)
    (video_path whisper_model_size : string) (frame_fps scene_threshold : Q)
    (scene_max_gap : Z) (g : globals) : result analysis * globals :=
  let video_path := str_Path lib video_path in
  match transcribe_with_whisper video_path whisper_model_size g with
  | (Err e, g1) => (Err e, g1)
  | (Ok t, g1) =>
      match extract_frames video_path frame_fps with
      | Err e => (Err e, g1)
      | Ok frames =>
          match caption_frames frames g1 with
          | (Err e, g2) => (Err e, g2)
          | (Ok frame_caps, g2) =>
              match categorize_scenes frame_caps scene_threshold scene_max_gap
                      frame_fps with
              | Err e => (Err e, g2)
              | Ok scs =>
                  let combined := combine_scenes_with_transcript scs (segments t) in
                  match analyze_emotions env video_path 1 with
                  | Err e => (Err e, g2)
                  | Ok emotions =>
                      let merged := merge_text_and_emotions (text t) emotions in
                      (Ok (Analysis (text t) (segments t) frame_caps scs combined
                             (language t) merged), g2)
                  end
              end
          end
      end
  end.

End Backends.
Arguments raw_segment : clear implicits.
Arguments capture : clear implicits.
Arguments backends : clear implicits.
Arguments globals : clear implicits.
End Wrappers.

(** * Vocabulary of the properties *)

Import Difflib.

(** The caption list of the segmenter example. *)
Definition example_captions : list string :=
  ["a cat on a mat"; "a cat on a mat"; "a dog running"; "a dog runs fast"].

(** The sum of a list of rationals. *)
Definition Qsum (l : list Q) : Q := foldr Qplus 0%Q l.

(** The score the selector is specified by: the sum over [j ≠ i] of
    [similar (caption i) (caption j)]. *)
Definition aggregate_score (caps : list string) (i : nat) : Q :=
  Qsum ((fun j => similar (item caps i) (item caps j))
          <$> filter (fun j => j ≠ i) (seq 0 (length caps))).

(** The sum of a list of floats as a loop computes it: from [0.0], one
    rounded addition per member, in the order of the list. *)
Definition float_sum (l : list Q) : Q :=
  foldl (fun s x => float64 (s + x)) 0%Q l.

(** The score the selector computes: the float sum, over [j ≠ i] in
    ascending order, of the floats [similar (caption i) (caption j)]. *)
Definition computed_score (caps : list string) (i : nat) : Q :=
  float_sum ((fun j => float64 (similar (item caps i) (item caps j)))
               <$> filter (fun j => j ≠ i) (seq 0 (length caps))).

(** Four captions whose exact aggregate scores are all [11 / 7]. *)
Definition tied_captions : list string := ["mat"; "tree"; "mat"; "tree"].

(** [lo <= x <= hi] *)
Definition in_closed (lo x hi : Q) : Prop := (lo <= x)%Q ∧ (x <= hi)%Q.

(** Both endpoints of the segment lie in the closed interval of the
    scene. *)
Definition segment_within (sc : scene) (seg : segment) : Prop :=
  in_closed (start_time sc) (seg_start seg) (end_time sc)
  ∧ in_closed (start_time sc) (seg_end seg) (end_time sc).

(** The order of the rationals is decidable, so the segments within a
    scene can be filtered out of a list. *)
#[global] Instance Qle_decision (x y : Q) : Decision (x <= y)%Q.
Proof.
  destruct (Qlt_le_dec y x) as [H|H]; [right | left; exact H].
  intros Hle. exact (Qlt_not_le _ _ H Hle).
Defined.

#[global] Instance segment_within_decision sc seg : Decision (segment_within sc seg).
Proof. unfold segment_within, in_closed. apply _. Defined.

(** Two adjoining scenes, [0, 1.0] and [1.0, 2.0]. *)
Definition scene_0_1 : scene := Scene ["a"] 0 1.
Definition scene_1_2 : scene := Scene ["b"] 1 2.

(** The sentence units as the specification words them: split on the
    delimiter, strip every piece, drop the empty ones. *)
Definition sentence_units (transcript_text : string) : list string :=
  filter (fun s => s ≠ EmptyString) (strip <$> split ". " transcript_text).

(** [sep.join(pieces)] *)
Fixpoint join (sep : string) (pieces : list string) : string :=
  match pieces with
  | [] => EmptyString
  | [p] => p
  | p :: pieces' => p +:+ sep +:+ join sep pieces'
  end.

(** The merged unit at position [i] for the sentence [line]. *)
Definition unit_at (emotions : list emotion_sample) (i : nat) (line : string)
    : merged_unit :=
  match emotions !! i with
  | Some e => MergedUnit line (dominant_emotion e) (emotion_scores e) (Some (time e))
  | None => MergedUnit line "neutral" ∅ None
  end.

(** Three sentences and two emotion samples. *)
Definition example_samples : list emotion_sample :=
  [EmotionSample 0 "happy" ∅ 1 None; EmotionSample 1 "sad" ∅ 1 None].

(** The scene emitted for the half-open index range [b.1, b.2): its
    captions are the captions of the range, its times the two indices
    divided by [fps]. *)
Definition scene_of (caps : list string) (fps : Q) (b : nat * nat) : scene :=
  Scene (take (b.2 - b.1) (drop b.1 caps))
        (inject_Z (Z.of_nat b.1) / fps)%Q
        (inject_Z (Z.of_nat b.2) / fps)%Q.

(** [bounds] is a chain of non-empty ranges from [s] to [e]: the first
    starts at [s], each next one starts where the one before it ends, the
    last ends at [e]. *)
Fixpoint chained (s : nat) (bounds : list (nat * nat)) (e : nat) : Prop :=
  match bounds with
  | [] => s = e
  | b :: bounds' => b.1 = s ∧ b.1 < b.2 ∧ chained b.2 bounds' e
  end.

(** The ranges of [bounds] partition [0, n). *)
Definition partitions (n : nat) (bounds : list (nat * nat)) : Prop :=
  (∀ b, head bounds = Some b → b.1 = 0)
  ∧ (∀ k b b', bounds !! k = Some b → bounds !! S k = Some b' → b'.1 = b.2)
  ∧ (∀ b, last bounds = Some b → b.2 = n)
  ∧ (∀ b, b ∈ bounds → b.1 < b.2)
  ∧ (∀ i, i < n → ∃ k b, bounds !! k = Some b ∧ b.1 ≤ i < b.2)
  ∧ (∀ b i, b ∈ bounds → b.1 ≤ i < b.2 → i < n)
  ∧ (∀ k k' b b', k < k' → bounds !! k = Some b → bounds !! k' = Some b' →
       b.2 ≤ b'.1).

(** The state of the segmenter loop before it visits index [i]: the
    closed scenes are the scenes of a chain of ranges from 0 to the start
    of the open scene, and the open scene holds the captions from its
    start up to [i]. *)
Definition segmenter_inv (caps : list string) (fps : Q) (i : nat)
    (scs : list scene) (cur : open_scene) : Prop :=
  ∃ bounds,
    scs = scene_of caps fps <$> bounds
    ∧ chained 0 bounds (start_idx cur)
    ∧ start_idx cur < i
    ∧ end_idx cur = i
    ∧ cur_captions cur = take (i - start_idx cur) (drop (start_idx cur) caps).

(** A run in which the clip opens and lasts two seconds, and the frame of
    the second sample cannot be read. *)
Definition unreadable_frame_env : collaborators unit unit :=
  @Collaborators unit unit
    (fun _ => Ok (Transcript [] "" "en"))
    (fun _ _ => Ok [])
    (fun _ => Ok [])
    (Ok tt)
    (fun _ => Ok (@Clip unit 2 (fun t => if Qeq_bool t 1
                                        then Err (Exception "cannot read frame")
                                        else Ok tt)))
    (fun _ => Ok tt)
    (fun _ => Ok ("happy", ∅)).

(** A run in which every frame is read and the classifier fails on the
    second sample. *)
Definition failing_classifier_env : collaborators nat nat :=
  @Collaborators nat nat
    (fun _ => Ok (Transcript [] "" "en"))
    (fun _ _ => Ok [])
    (fun _ => Ok [])
    (Ok tt)
    (fun _ => Ok (@Clip nat 2 (fun t => if Qeq_bool t 1 then Ok 1 else Ok 0)))
    (fun frame => Ok frame)
    (fun image => if image =? 1 then Err (Exception "no face")
                  else Ok ("happy", ∅)).

(** The progress records of the task, in program order. *)
Definition schedule_events : list event :=
  [Progress 5 "starting analysis"; Progress 20 "transcribing audio";
   Progress 40 "extracting frames"; Progress 60 "captioning frames";
   Progress 70 "grouping scenes"; Progress 80 "attaching dialogue";
   Progress 90 "analyzing emotions"; Progress 100 "finalizing"].

(** The percent schedule. *)
Definition schedule : list Z := [5; 20; 40; 60; 70; 80; 90; 100]%Z.

(** The percent values of the progress records among the events. *)
Fixpoint percents (evs : list event) : list Z :=
  match evs with
  | [] => []
  | Progress p _ :: evs' => p :: percents evs'
  | Remove _ :: evs' => percents evs'
  end.

(** The event is a stored progress record. *)
Definition is_progress (e : event) : Prop :=
  match e with
  | Progress _ _ => True
  | Remove _ => False
  end.

(** A world that holds the uploaded file, with nothing stored yet. *)
Definition uploaded_world : world := World {["video.mp4"]} ∅ [].

(** A progress store that is down when the third record is written. *)
Definition flaky_store (percent : Z) (step : string) : result unit :=
  if (percent =? 40)%Z then Err (Exception "backend down") else Ok tt.

(** The total size of a list of matching blocks. *)
Definition total (blocks : list (nat * nat * nat)) : nat :=
  foldr (fun blk acc => blk.2 + acc) 0 blocks.

(** The block [m] lies inside the window [alo, ahi) x [blo, bhi). *)
Definition inside (alo ahi blo bhi : nat) (m : nat * nat * nat) : Prop :=
  alo ≤ m.1.1 ∧ m.1.1 + m.2 ≤ ahi ∧ blo ≤ m.1.2 ∧ m.1.2 + m.2 ≤ bhi.

(** The lengths a row of [j2len] can hold when row [i] is entered: a run
    that ends in row [i - 1] at column [j] does not start before [alo] or
    before [blo]. *)
Definition row_bounded (alo blo bhi i : nat) (j2len : gmap nat nat) : Prop :=
  ∀ j v, j2len !! j = Some v → v ≤ i - alo ∧ v ≤ j + 1 - blo ∧ blo ≤ j < bhi.

Section EmotionRecords.
Context {Frame Image : Type}.
Variable env : collaborators Frame Image.

(** The record of a sample whose frame was fetched and resized: the
    classifier's answer, or the inline error record when it raises. *)
Definition sample_of (t : Q) (image : Image) : emotion_sample :=
  match classify env image with
  | Ok (dominant, scores) => EmotionSample t dominant scores 1 None
  | Err e => EmotionSample t "error" ∅ 0 (Some (str_of_exn e))
  end.

(** The frame of time [t] is fetched and resized without a failure. *)
Definition frame_ready (c : clip Frame) (t : Q) (image : Image) : Prop :=
  ∃ frame, get_frame c t = Ok frame ∧ resize_to_image env frame = Ok image.

End EmotionRecords.

Section Runs.
Context {A : Type} `{EqDecision A}.
Variable x : list A.

(** Position [i] of [x] holds an element that is not popular. *)
Definition indexed (i : nat) : bool :=
  match x !! i with
  | Some c => negb (popular x c)
  | None => false
  end.

(** The number of consecutive indexed positions that end at [i]: what the
    diagonal of [j2len] holds when [x] is matched against itself. *)
Fixpoint run (i : nat) : nat :=
  match i with
  | 0 => if indexed 0 then 1 else 0
  | S i' => if indexed (S i') then S (run i') else 0
  end.

(** The run that ends just before position [i]. *)
Definition run_before (i : nat) : nat :=
  match i with
  | 0 => 0
  | S i' => run i'
  end.

(** What holds of the row [j2len] when row [i] is entered. *)
Definition row_inv (i : nat) (j2len : gmap nat nat) : Prop :=
  (∀ j, j2lenget j2len j ≤ run_before j ∧ j2lenget j2len j ≤ run_before i)
  ∧ j2lenget j2len i = run_before i.

End Runs.

(** The block [m = (i, j, k)] is a common substring of [a] and [b]:
    [a[i+t] = b[j+t]] for every [t < k]. *)
Definition common {A : Type} (a b : list A) (m : nat * nat * nat) : Prop :=
  ∀ t, t < m.2 → ∃ c, a !! (m.1.1 + t) = Some c ∧ b !! (m.1.2 + t) = Some c.

(** When row [i] is entered, the length [j2len] holds for column [j] is
    the length of a common substring that ends at [a[i-1]] and [b[j]]. *)
Definition row_sound {A : Type} (a b : list A) (i : nat) (j2len : gmap nat nat)
    : Prop :=
  ∀ j v, j2len !! j = Some v →
    v ≤ i ∧ v ≤ j + 1 ∧ common a b (i - v, j + 1 - v, v).

(** What the segmenter loop keeps about the sizes: every closed scene
    has more than [max_gap] captions, and the open scene has more
    captions than its count of tolerated outliers. *)
Definition tolerance_inv (max_gap : Z) (scs : list scene) (cur : open_scene) : Prop :=
  (∀ s, s ∈ scs → (max_gap < Z.of_nat (length (captions s)))%Z)
  ∧ (0 <= gap cur)%Z
  ∧ (gap cur < Z.of_nat (length (cur_captions cur)))%Z.

(** The scene that holds caption [k] alone. *)
Definition single_scene (caps : list string) (fps : Q) (k : nat) : scene :=
  Scene [item caps k] (inject_Z (Z.of_nat k) / fps)%Q
        (inject_Z (Z.of_nat (S k)) / fps)%Q.

(** The frame of time [t] cannot be fetched, or cannot be resized, and
    [e] is what is raised. *)
Definition frame_fails {Frame Image : Type} (env : collaborators Frame Image)
    (c : clip Frame) (t : Q) (e : exn) : Prop :=
  get_frame c t = Err e
  ∨ ∃ frame, get_frame c t = Ok frame ∧ resize_to_image env frame = Err e.

(** What the stages of the task compute when no progress record fails to
    be stored: the collaborators and the pure stages, one after the
    other. *)
Definition stages_outcome {Frame Image : Type} (env : collaborators Frame Image)
    (video_path : string) : result analysis :=
  t ← transcribe_with_whisper env video_path;
  frames ← extract_frames env video_path 1;
  caps ← caption_frames env frames;
  scs ← categorize_scenes caps (6 # 10) 1 1;
  emotions ← analyze_emotions env video_path 1;
  Ok (Analysis (text t) (segments t) caps scs
        (combine_scenes_with_transcript scs (segments t)) (language t)
        (merge_text_and_emotions (text t) emotions)).

(** A segment as the transcript keeps it. *)
Definition segment_of (s : Wrappers.raw_segment) : segment :=
  Segment (Wrappers.rs_start s) (Wrappers.rs_end s) (Wrappers.rs_text s).

(** Libraries for the examples: the whisper model is the name of its
    size, the video has five frames at 2 frames per second, numbered
    from 0, and a frame is captioned by its parity. *)
Definition example_backends : Wrappers.backends nat string unit unit :=
  @Wrappers.Backends nat string unit unit
    (fun model_size => Ok model_size)
    (fun _ _ => Ok ([Wrappers.RawSegment 0 1 "Hello."; Wrappers.RawSegment 1 2 " Bye."],
                    "en"))
    (Ok tt) (Ok tt)
    (fun _ _ f => Ok (if Nat.even f then "a dog" else "a cat"))
    (fun _ => @Wrappers.Capture nat true 2 [0; 1; 2; 3; 4])
    (fun video_path => video_path).

(** No model loaded yet. *)
Definition no_models : Wrappers.globals string unit unit :=
  @Wrappers.Globals string unit unit None None None.

(** The collaborators of the task when they are the wrappers over
    [example_backends], started with no model loaded. *)
Definition wrapped_env : collaborators nat nat :=
  @Collaborators nat nat
    (fun video_path =>
       (Wrappers.transcribe_with_whisper example_backends video_path "small"
          no_models).1)
    (fun video_path fps => Wrappers.extract_frames example_backends video_path fps)
    (fun frames =>
       (Wrappers.caption_frames example_backends frames
          (Wrappers.transcribe_with_whisper example_backends "video.mp4" "small"
             no_models).2).1)
    (Ok tt)
    (fun _ => Ok (@Clip nat 2 (fun _ => Ok 0)))
    (fun frame => Ok frame)
    (fun _ => Ok ("happy", ∅)).

(** * Properties *)

(** ** The segmenter example *)

(** The two similarities that decide the example: the third caption is
    unlike the captions before it, the fourth is like the third. *)
Lemma example_similarities :
  similar "a dog running" "a cat on a mat" = (8 # 27)%Q
  ∧ similar "a dog runs fast" "a dog running" = (18 # 28)%Q.
Proof. split; vm_compute; reflexivity. Qed.

(** C2, the claim as stated fails: on the example captions with
    threshold 0.6, max_gap 1 and fps 1.0 the segmenter does not return
    two scenes. *)
Lemma example_captions_not_two_scenes :
  ¬ ∃ s1 s2, categorize_scenes example_captions (6 # 10) 1 1 = Ok [s1; s2].
Proof.
  intros (s1 & s2 & H). vm_compute in H. discriminate H.
Qed.

(** C2, amended: on the example captions with threshold 0.6, max_gap 1
    and fps 1.0 the segmenter returns exactly one scene, which holds all
    four captions and spans [0,4) (start_time 0, end_time 4): the third
    caption is tolerated as an outlier and the fourth is similar to the
    third.  With max_gap 0 it returns the two scenes [0,2) and [2,4). *)
Theorem categorize_scenes_example :
  categorize_scenes example_captions (6 # 10) 1 1
    = Ok [Scene example_captions 0 4]
  ∧ categorize_scenes example_captions (6 # 10) 0 1
    = Ok [Scene ["a cat on a mat"; "a cat on a mat"] 0 2;
          Scene ["a dog running"; "a dog runs fast"] 2 4].
Proof. split; vm_compute; reflexivity. Qed.

(** ** The representative selector on the empty list *)

(** C10: on the empty caption list [representative_caption] returns the
    triple of the empty text, the index -1 and the empty score vector. *)
Theorem representative_caption_empty :
  representative_caption [] = ("", (-1)%Z, []).
Proof. reflexivity. Qed.

(** ** The representative selector *)

Lemma Qltb_lt (x y : Q) : Qltb x y = true ↔ (x < y)%Q.
Proof.
  unfold Qltb. rewrite negb_true_iff. split.
  - intros H. apply Qnot_le_lt. intros Hle.
    apply Qle_bool_iff in Hle. congruence.
  - intros H. destruct (Qle_bool y x) eqn:E; [|done].
    apply Qle_bool_iff in E. exfalso. by apply (Qlt_not_le x y).
Qed.

Lemma Qltb_ge (x y : Q) : Qltb x y = false ↔ (y <= x)%Q.
Proof.
  unfold Qltb. rewrite negb_false_iff. apply Qle_bool_iff.
Qed.

(** The inner loop adds to its accumulator, one rounded addition after
    the other, the similarities to the captions at the other positions. *)
Lemma score_inner_fold caps ai i js : ∀ s,
  score_inner caps ai i js s
  = foldl (fun s x => float64 (s + x)) s
      ((fun j => float64 (similar ai (item caps j))) <$> filter (fun j => j ≠ i) js).
Proof.
  induction js as [|j js IH]; intros s; simpl; [done|].
  rewrite filter_cons. destruct (Nat.eqb_spec i j) as [->|Hne].
  - rewrite decide_False by (intros H; by apply H). apply IH.
  - rewrite decide_True by congruence. rewrite IH. done.
Qed.

(** The outer loop overwrites exactly the positions it visits. *)
Lemma score_outer_lookup caps m : ∀ r scores i,
  r + m ≤ length scores →
  score_outer caps (seq r m) scores !! i
  = if bool_decide (r ≤ i < r + m)
    then Some (score_inner caps (item caps i) i (seq 0 (length caps)) 0%Q)
    else scores !! i.
Proof.
  induction m as [|m IH]; intros r scores i Hlen; simpl.
  - rewrite bool_decide_eq_false_2; [done | lia].
  - rewrite IH by (rewrite length_insert; lia).
    destruct (decide (i = r)) as [->|Hne].
    + rewrite (bool_decide_eq_false_2 (S r ≤ r < _)) by lia.
      rewrite bool_decide_eq_true_2 by lia.
      apply list_lookup_insert_eq. lia.
    + rewrite list_lookup_insert_ne by done.
      rewrite (bool_decide_ext (S r ≤ i < S r + m) (r ≤ i < r + S m)) by lia.
      done.
Qed.

Lemma score_outer_length caps rows : ∀ scores,
  length (score_outer caps rows scores) = length scores.
Proof.
  induction rows as [|i rows IH]; intros scores; simpl; [done|].
  by rewrite IH, length_insert.
Qed.

(** [max] with a key returns the first of the maximal items: the items
    before it have a strictly smaller key, the items after it a key that
    is not greater. *)
Lemma max_key_split key rest : ∀ best,
  ∃ pre post,
    best :: rest = pre ++ max_key key best rest :: post
    ∧ (∀ x, x ∈ pre → (key x < key (max_key key best rest))%Q)
    ∧ (∀ x, x ∈ post → (key x <= key (max_key key best rest))%Q).
Proof.
  induction rest as [|x rest IH]; intros best; simpl.
  - exists [], []. split_and!; [done | | ]; intros ? H; inversion H.
  - destruct (Qltb (key best) (key x)) eqn:E.
    + apply Qltb_lt in E.
      destruct (IH x) as (pre & post & Heq & Hpre & Hpost).
      exists (best :: pre), post. split_and!; [by rewrite Heq | | done].
      intros y [->|Hy]%elem_of_cons; [|by apply Hpre].
      destruct pre as [|p pre]; simpl in Heq.
      * injection Heq as Hx _. by rewrite <- Hx.
      * injection Heq as Hx _. subst p.
        eapply Qlt_trans; [exact E|]. apply Hpre. left.
    + apply Qltb_ge in E.
      destruct (IH best) as (pre & post & Heq & Hpre & Hpost).
      destruct pre as [|p pre]; simpl in Heq.
      * injection Heq as Hb Hr. exists [], (x :: post).
        split_and!; [simpl; by rewrite <- Hb, Hr | intros ? H; inversion H |].
        intros y [->|Hy]%elem_of_cons; [by rewrite <- Hb | by apply Hpost].
      * injection Heq as Hb Hr. subst p.
        exists (best :: x :: pre), post.
        split_and!; [simpl; by rewrite <- Hr | | done].
        intros y [->|[->|Hy]%elem_of_cons]%elem_of_cons.
        -- apply Hpre. left.
        -- eapply Qle_lt_trans; [exact E|]. apply Hpre. left.
        -- apply Hpre. by right.
Qed.

(** Over the positions [0 .. n-1] the result of [max_key] is the smallest
    position with the greatest key. *)
Lemma max_key_seq key n :
  let best := max_key key 0 (seq 1 n) in
  best < S n
  ∧ (∀ k, k < S n → (key k <= key best)%Q)
  ∧ (∀ k, k < best → (key k < key best)%Q).
Proof.
  intros best. subst best.
  destruct (max_key_split key (seq 1 n) 0) as (pre & post & Heq & Hpre & Hpost).
  change (0 :: seq 1 n) with (seq 0 (S n)) in Heq.
  set (best := max_key key 0 (seq 1 n)) in *.
  assert (Hbest : best = length pre ∧ best < S n).
  { assert (H : seq 0 (S n) !! length pre = Some best).
    { rewrite Heq. by rewrite list_lookup_middle. }
    apply lookup_seq in H. lia. }
  destruct Hbest as [Hbest Hlt].
  assert (Hin : ∀ k, k < S n → k ∈ pre ∨ k = best ∨ k ∈ post).
  { intros k Hk. assert (H : k ∈ seq 0 (S n)) by (apply elem_of_seq; lia).
    rewrite Heq in H. apply elem_of_app in H as [H|H]; [by left|].
    apply elem_of_cons in H as [H|H]; auto. }
  split_and!; [done | |].
  - intros k Hk. destruct (Hin k Hk) as [H|[->|H]].
    + apply Qlt_le_weak. by apply Hpre.
    + apply Qle_refl.
    + by apply Hpost.
  - intros k Hk. apply Hpre.
    assert (H : seq 0 (S n) !! k = Some k) by (apply lookup_seq; lia).
    rewrite Heq, lookup_app_l in H by lia.
    by apply list_elem_of_lookup_2 in H.
Qed.

Lemma score_outer_computed caps i :
  i < length caps →
  score_outer caps (seq 0 (length caps)) (replicate (length caps) 0%Q) !! i
  = Some (computed_score caps i).
Proof.
  intros Hi. rewrite score_outer_lookup by (rewrite length_replicate; lia).
  rewrite bool_decide_eq_true_2 by lia. by rewrite score_inner_fold.
Qed.

(** The selector on four captions whose exact sums tie: the sums of the
    similarities to the other captions are [11 / 7] at every position,
    so the smallest position with the greatest sum is 0; the floats the
    loop adds up differ in the last place with the order of the
    additions, and the selector returns "tree" at position 1.  The
    selector is not the first maximum of the exact sums. *)
Lemma representative_caption_rounding_breaks_tie :
  (∀ i, i < 4 → (aggregate_score tied_captions i == 11 # 7)%Q)
  ∧ (representative_caption tied_captions).1 = ("tree", 1%Z)
  ∧ ¬ (∀ caps, 2 ≤ length caps →
         ∃ best,
           (representative_caption caps).1 = (item caps best, Z.of_nat best)
           ∧ (∀ k, k < length caps →
                (aggregate_score caps k <= aggregate_score caps best)%Q)
           ∧ (∀ k, k < best →
                (aggregate_score caps k < aggregate_score caps best)%Q)).
Proof.
  split_and!.
  - intros i Hi. do 4 (destruct i as [|i]; [by vm_compute|]). lia.
  - by vm_compute.
  - intros H. destruct (H tied_captions) as (best & Hrep & _ & Hfirst);
      [simpl; lia|].
    assert (Hbest : best = 1).
    { assert (H1 : (representative_caption tied_captions).1.2 = 1%Z) by (by vm_compute).
      rewrite Hrep in H1. simpl in H1. lia. }
    subst best. specialize (Hfirst 0 ltac:(lia)).
    clear H Hrep. apply Qlt_alt in Hfirst. vm_compute in Hfirst.
    discriminate Hfirst.
Qed.

(** C5, amended: on a list of at least two captions the selector returns
    the caption at the first position whose computed score is greatest,
    with that position and the vector of the computed scores; the
    computed score of a position is the float sum, from 0.0 and in
    ascending order of [j], of the similarities to the captions at the
    other positions.  On a one-caption list it returns that caption,
    position 0 and the score vector [1.0]; on ["x","x","y"] it returns
    "x" at position 0. *)
Theorem representative_caption_medoid (caps : list string) :
  (2 ≤ length caps →
     ∃ best scores,
       representative_caption caps = (item caps best, Z.of_nat best, scores)
       ∧ best < length caps
       ∧ length scores = length caps
       ∧ (∀ i, i < length caps → scores !! i = Some (computed_score caps i))
       ∧ (∀ k, k < length caps →
            (computed_score caps k <= computed_score caps best)%Q)
       ∧ (∀ k, k < best →
            (computed_score caps k < computed_score caps best)%Q))
  ∧ (∀ c, caps = [c] → representative_caption caps = (c, 0%Z, [1%Q]))
  ∧ (representative_caption ["x"; "x"; "y"]).1 = ("x", 0%Z).
Proof.
  split_and!; [| by intros c -> | by vm_compute].
  intros Hn. unfold representative_caption.
  destruct (Nat.eqb_spec (length caps) 0) as [?|_]; [lia|].
  destruct (Nat.eqb_spec (length caps) 1) as [?|_]; [lia|].
  set (scores := score_outer caps _ _).
  set (key := fun i => default 0%Q (scores !! i)).
  assert (Hkey : ∀ i, i < length caps → key i = computed_score caps i).
  { intros i Hi. unfold key, scores. by rewrite score_outer_computed. }
  destruct (max_key_seq key (length caps - 1)) as (Hlt & Hmax & Hfirst).
  set (best := max_key key 0 (seq 1 (length caps - 1))) in *.
  exists best, scores. split_and!.
  - reflexivity.
  - lia.
  - unfold scores. by rewrite score_outer_length, length_replicate.
  - intros i Hi. by apply score_outer_computed.
  - intros k Hk. rewrite <- !Hkey by lia. apply Hmax. lia.
  - intros k Hk. rewrite <- !Hkey by lia. by apply Hfirst.
Qed.

(** The selector on the four captions whose exact sums tie: the first
    greatest computed score is at position 1. *)
Lemma representative_caption_medoid_witness :
  ∃ scores,
    representative_caption tied_captions = ("tree", 1%Z, scores)
    ∧ (computed_score tied_captions 0 < computed_score tied_captions 1)%Q.
Proof.
  destruct (representative_caption_medoid tied_captions) as (H & _ & _).
  destruct H as (best & scores & Heq & _ & _ & _ & _ & Hfirst); [simpl; lia|].
  assert (Hbest : best = 1).
  { assert (H1 : (representative_caption tied_captions).1.2 = 1%Z) by (by vm_compute).
    rewrite Heq in H1. simpl in H1. lia. }
  subst best. exists scores. split; [exact Heq | apply Hfirst; lia].
Defined.

(** ** The transcript aligner *)

Lemma within_scene_spec sc seg : within_scene sc seg = true ↔ segment_within sc seg.
Proof.
  unfold within_scene, segment_within, in_closed.
  rewrite !andb_true_iff, !Qle_bool_iff. tauto.
Qed.

Lemma scene_dialogue_filter sc segs :
  scene_dialogue sc segs = seg_text <$> filter (segment_within sc) segs.
Proof.
  induction segs as [|seg segs IH]; simpl; [done|].
  rewrite filter_cons. destruct (within_scene sc seg) eqn:E.
  - apply within_scene_spec in E. rewrite decide_True by done.
    by rewrite fmap_cons, IH.
  - rewrite decide_False; [done|]. intros H%within_scene_spec. congruence.
Qed.

Lemma scene_dialogue_app sc l1 l2 :
  scene_dialogue sc (l1 ++ l2) = scene_dialogue sc l1 ++ scene_dialogue sc l2.
Proof. by rewrite !scene_dialogue_filter, filter_app, fmap_app. Qed.

Lemma combine_lookup scenes segs k sc :
  scenes !! k = Some sc →
  combine_scenes_with_transcript scenes segs !! k
  = Some (CombinedScene (start_time sc) (end_time sc)
            (representative_caption (captions sc)).1.1 (scene_dialogue sc segs)).
Proof.
  revert k. induction scenes as [|s scenes IH]; intros [|k] H; simplify_eq/=; eauto.
Qed.

(** C3, the claim as stated fails: the segment {start = 0.5, end = 1.0}
    has its start in the scene [0, 1.0] and its end in the next scene
    [1.0, 2.0], and it is attached to the first of them; the segment
    {start = 1.0, end = 1.0} is attached to both. *)
Lemma boundary_segment_attached :
  in_closed (start_time scene_0_1) (1 # 2) (end_time scene_0_1)
  ∧ in_closed (start_time scene_1_2) 1 (end_time scene_1_2)
  ∧ dialogue <$> combine_scenes_with_transcript [scene_0_1; scene_1_2]
                   [Segment (1 # 2) 1 "hello"]
    = [["hello"]; []]
  ∧ dialogue <$> combine_scenes_with_transcript [scene_0_1; scene_1_2]
                   [Segment 1 1 "hello"]
    = [["hello"]; ["hello"]].
Proof. split_and!; [by split | by split | by vm_compute | by vm_compute]. Qed.

(** C3, amended: every scene gets the texts of exactly the segments whose
    start and whose end both lie in the closed interval of the scene, in
    transcript order; a segment that starts before the end of one scene
    and ends after the start of a scene that begins no earlier than the
    first one ends is attached to neither of them. *)
Theorem combine_scenes_with_transcript_dialogue scenes segs :
  length (combine_scenes_with_transcript scenes segs) = length scenes
  ∧ (∀ k sc, scenes !! k = Some sc →
       ∃ c, combine_scenes_with_transcript scenes segs !! k = Some c
            ∧ cs_start_time c = start_time sc
            ∧ cs_end_time c = end_time sc
            ∧ dialogue c = seg_text <$> filter (segment_within sc) segs)
  ∧ (∀ i j a b c d seg before after,
       scenes !! i = Some a → scenes !! j = Some b →
       combine_scenes_with_transcript scenes (before ++ seg :: after) !! i = Some c →
       combine_scenes_with_transcript scenes (before ++ seg :: after) !! j = Some d →
       (end_time a <= start_time b)%Q →
       (seg_start seg < end_time a)%Q →
       (start_time b < seg_end seg)%Q →
       ¬ segment_within a seg ∧ ¬ segment_within b seg
       ∧ dialogue c = seg_text <$> filter (segment_within a) (before ++ after)
       ∧ dialogue d = seg_text <$> filter (segment_within b) (before ++ after)).
Proof.
  split_and!.
  - induction scenes as [|s scenes IH]; simpl; [done | by rewrite IH].
  - intros k sc Hk. eexists. split; [by apply combine_lookup|].
    simpl. split_and!; [done | done | apply scene_dialogue_filter].
  - intros i j a b c d seg before after Ha Hb Hc Hd Hab Hs He.
    rewrite (combine_lookup _ _ _ _ Ha) in Hc.
    rewrite (combine_lookup _ _ _ _ Hb) in Hd.
    injection Hc as <-. injection Hd as <-. simpl.
    assert (Hna : ¬ segment_within a seg).
    { intros (_ & _ & Hle). apply (Qlt_not_le _ _ He).
      by eapply Qle_trans. }
    assert (Hnb : ¬ segment_within b seg).
    { intros ((Hle & _) & _). apply (Qlt_not_le _ _ Hs).
      by eapply Qle_trans. }
    split_and!; [done | done | |];
      rewrite scene_dialogue_filter, !filter_app, filter_cons, decide_False by done;
      done.
Qed.

(** The segment {start = 0.9, end = 1.1} against the adjoining scenes
    [0, 1.0] and [1.0, 2.0]: it is in the dialogue of neither. *)
Lemma combine_scenes_with_transcript_dialogue_witness :
  ∃ c d,
    combine_scenes_with_transcript [scene_0_1; scene_1_2]
      [Segment (9 # 10) (11 # 10) "hello"] = [c; d]
    ∧ dialogue c = [] ∧ dialogue d = [].
Proof.
  pose proof (combine_scenes_with_transcript_dialogue [scene_0_1; scene_1_2]
                [Segment (9 # 10) (11 # 10) "hello"]) as (_ & _ & H).
  eexists _, _. split; [reflexivity|].
  destruct (H 0 1 scene_0_1 scene_1_2 _ _ (Segment (9 # 10) (11 # 10) "hello") [] []
              eq_refl eq_refl eq_refl eq_refl) as (_ & _ & Hc & Hd);
    [by vm_compute | by vm_compute | by vm_compute |].
  split; [exact Hc | exact Hd].
Defined.

(** ** The emotion-text merger *)

Lemma string_app_cons c s t : String c s +:+ t = String c (s +:+ t).
Proof. reflexivity. Qed.

Lemma string_app_nil_r s : s +:+ EmptyString = s.
Proof. induction s as [|c s IH]; [done|]. by rewrite string_app_cons, IH. Qed.

Lemma string_app_assoc s t u : (s +:+ t) +:+ u = s +:+ (t +:+ u).
Proof. induction s as [|c s IH]; [done|]. by rewrite !string_app_cons, IH. Qed.

Lemma string_app_length s t :
  String.length (s +:+ t) = String.length s + String.length t.
Proof. induction s as [|c s IH]; [done|]. rewrite string_app_cons. simpl. by rewrite IH. Qed.

Lemma prefix_app sep : ∀ s, String.prefix sep s = true → ∃ rest, s = sep +:+ rest.
Proof.
  induction sep as [|a sep IH]; intros s H.
  - by exists s.
  - destruct s as [|b s]; [done|]. simpl in H.
    destruct (ascii_dec a b) as [->|]; [|done].
    destruct (IH s H) as [rest ->]. by exists rest.
Qed.

Lemma join_cons_cons sep p q pieces :
  join sep (p :: q :: pieces) = p +:+ sep +:+ join sep (q :: pieces).
Proof. reflexivity. Qed.

(** The characters of a found separator are dropped. *)
Lemma split_from_skip sep u : ∀ piece s,
  split_from sep (String.length u) piece (u +:+ s) = split_from sep 0 piece s.
Proof.
  induction u as [|c u IH]; intros piece s; [done|].
  rewrite string_app_cons. simpl. apply IH.
Qed.

Lemma split_from_cons sep skip piece s :
  ∃ p pieces, split_from sep skip piece s = p :: pieces.
Proof.
  revert skip piece.
  induction s as [|c s IH]; intros skip piece; cbn [split_from]; [eauto|].
  destruct skip as [|skip]; [|apply IH].
  destruct (String.prefix sep (String c s)); [eauto | apply IH].
Qed.

(** [split] cuts the text at separators and nowhere else: joining the
    pieces with the separator gives the text back. *)
Lemma join_split_from sep n : ∀ s piece,
  sep ≠ EmptyString → String.length s ≤ n →
  join sep (split_from sep 0 piece s) = piece +:+ s.
Proof.
  induction n as [|n IH]; intros s piece Hsep Hlen.
  - destruct s; [|simpl in Hlen; lia]. simpl. by rewrite string_app_nil_r.
  - destruct s as [|c s]; [simpl; by rewrite string_app_nil_r|].
    simpl in Hlen. cbn [split_from].
    destruct (String.prefix sep (String c s)) eqn:Hp.
    + destruct (prefix_app _ _ Hp) as [rest Hrest].
      destruct sep as [|c' sep']; [done|].
      rewrite string_app_cons in Hrest. injection Hrest as <- ->.
      replace (String.length (String c sep') - 1) with (String.length sep')
        by (simpl; lia).
      rewrite split_from_skip.
      destruct (split_from_cons (String c sep') 0 EmptyString rest) as (p & ps & Hsplit).
      pose proof (IH rest EmptyString Hsep) as Hrec.
      rewrite Hsplit in *. rewrite join_cons_cons, Hrec.
      * by rewrite string_app_cons.
      * rewrite string_app_length in Hlen. lia.
    + rewrite IH by (done || lia).
      by rewrite string_app_assoc.
Qed.

Lemma join_split sep s : sep ≠ EmptyString → join sep (split sep s) = s.
Proof. intros Hsep. unfold split. by rewrite (join_split_from sep (String.length s)). Qed.

Lemma stripped_nonempty_filter pieces :
  stripped_nonempty pieces = filter (fun s => s ≠ EmptyString) (strip <$> pieces).
Proof.
  induction pieces as [|s pieces IH]; simpl; [done|].
  rewrite filter_cons. case_bool_decide as E.
  - by rewrite decide_False by (intros H; by apply H).
  - by rewrite decide_True, IH by done.
Qed.

Lemma merge_loop_imap emotions sentences : ∀ i merged,
  merge_loop emotions i sentences merged
  = merged ++ imap (fun k line => unit_at emotions (i + k) line) sentences.
Proof.
  induction sentences as [|line sentences IH]; intros i merged; simpl.
  - by rewrite app_nil_r.
  - rewrite IH, <- app_assoc. f_equal. simpl. f_equal.
    + unfold unit_at. rewrite Nat.add_0_r.
      destruct (Nat.ltb_spec i (length emotions)) as [Hlt|Hge].
      * destruct (lookup_lt_is_Some_2 emotions i Hlt) as [e He].
        by rewrite (list_lookup_total_correct _ _ _ He), He.
      * by rewrite lookup_ge_None_2 by lia.
    + apply imap_ext. intros k line' _. simpl. f_equal. lia.
Qed.

(** C6: the merger returns one unit for every sentence unit of the text
    (the pieces between the delimiters ". ", stripped, the empty ones
    dropped, in order); the unit at position [i] carries the sentence and
    the dominant emotion, scores and time of sample [i] when there is
    one, and "neutral", no scores and no time otherwise.  With three
    sentences and two samples the third unit is the neutral default. *)
Theorem merge_text_and_emotions_positional transcript_text emotions :
  length (merge_text_and_emotions transcript_text emotions)
  = length (sentence_units transcript_text)
  ∧ (∀ i line, sentence_units transcript_text !! i = Some line →
       merge_text_and_emotions transcript_text emotions !! i
       = Some (if bool_decide (i < length emotions)
               then MergedUnit line (dominant_emotion (emotions !!! i))
                      (emotion_scores (emotions !!! i))
                      (Some (time (emotions !!! i)))
               else MergedUnit line "neutral" ∅ None))
  ∧ merge_text_and_emotions "One. Two. Three" example_samples !! 2
    = Some (MergedUnit "Three" "neutral" ∅ None).
Proof.
  unfold merge_text_and_emotions, sentence_units.
  rewrite <- !stripped_nonempty_filter, !merge_loop_imap. simpl app.
  split_and!.
  - by rewrite length_imap.
  - intros i line Hi. rewrite list_lookup_imap, Hi. simpl. f_equal.
    unfold unit_at. case_bool_decide as Hlt.
    + destruct (lookup_lt_is_Some_2 emotions i Hlt) as [e He].
      by rewrite (list_lookup_total_correct _ _ _ He), He.
    + by rewrite lookup_ge_None_2 by lia.
  - reflexivity.
Qed.

(** The theorem at the text "One. Two. Three" and two samples. *)
Lemma merge_text_and_emotions_positional_witness :
  merge_text_and_emotions "One. Two. Three" example_samples !! 1
  = Some (MergedUnit "Two" "sad" ∅ (Some 1%Q)).
Proof.
  pose proof (merge_text_and_emotions_positional "One. Two. Three" example_samples)
    as (_ & H & _).
  exact (H 1 "Two" eq_refl).
Defined.

(** ** The scene segmenter *)

Lemma chained_snoc bounds : ∀ s m e,
  chained s bounds m → m < e → chained s (bounds ++ [(m, e)]) e.
Proof.
  induction bounds as [|b bounds IH]; intros s m e H Hlt; simpl in *.
  - subst. done.
  - destruct H as (? & ? & H). split_and!; [done | done | by apply IH].
Qed.

Lemma chained_le bounds : ∀ s e, chained s bounds e → s ≤ e.
Proof.
  induction bounds as [|b bounds IH]; intros s e H; simpl in *; [lia|].
  destruct H as (? & ? & H%IH). lia.
Qed.

Lemma chained_inside bounds : ∀ s e b,
  chained s bounds e → b ∈ bounds → s ≤ b.1 ∧ b.1 < b.2 ∧ b.2 ≤ e.
Proof.
  induction bounds as [|b0 bounds IH]; intros s e b H Hin; simpl in *.
  - inversion Hin.
  - destruct H as (Hs & Hlt & H). apply elem_of_cons in Hin as [->|Hin].
    + apply chained_le in H. lia.
    + destruct (IH _ _ _ H Hin) as (? & ? & ?). lia.
Qed.

Lemma chained_last bounds : ∀ s e b,
  chained s bounds e → last bounds = Some b → b.2 = e.
Proof.
  induction bounds as [|b0 bounds IH]; intros s e b H Hl; simpl in *; [done|].
  destruct H as (_ & _ & H). destruct bounds as [|b1 bounds].
  - simpl in *. by simplify_eq.
  - by apply (IH _ _ _ H).
Qed.

Lemma chained_next bounds : ∀ s e k b b',
  chained s bounds e → bounds !! k = Some b → bounds !! S k = Some b' → b'.1 = b.2.
Proof.
  induction bounds as [|b0 bounds IH]; intros s e k b b' H Hk Hk'; [done|].
  destruct H as (_ & _ & H). destruct k as [|k]; simpl in *.
  - simplify_eq. destruct bounds as [|b1 bounds]; simplify_eq/=. by destruct H.
  - by apply (IH _ _ _ _ _ H Hk).
Qed.

Lemma chained_cover bounds : ∀ s e i,
  chained s bounds e → s ≤ i < e → ∃ k b, bounds !! k = Some b ∧ b.1 ≤ i < b.2.
Proof.
  induction bounds as [|b0 bounds IH]; intros s e i H Hi; simpl in *; [lia|].
  destruct H as (Hs & Hlt & H). destruct (decide (i < b0.2)) as [Hin|Hout].
  - exists 0, b0. split; [done | lia].
  - destruct (IH _ _ i H) as (k & b & Hk & Hb); [lia|].
    by exists (S k), b.
Qed.

Lemma chained_ascending bounds : ∀ s e k k' b b',
  chained s bounds e → k < k' → bounds !! k = Some b → bounds !! k' = Some b' →
  b.2 ≤ b'.1.
Proof.
  induction bounds as [|b0 bounds IH]; intros s e k k' b b' H Hlt Hk Hk'; [done|].
  destruct H as (_ & _ & H). destruct k' as [|k']; [lia|]. destruct k as [|k].
  - simpl in *. simplify_eq.
    apply list_elem_of_lookup_2 in Hk'. by apply (chained_inside _ _ _ _ H).
  - simpl in *. apply (IH _ _ k k' _ _ H); [lia | done | done].
Qed.

Lemma chained_partitions bounds n : chained 0 bounds n → partitions n bounds.
Proof.
  intros H. unfold partitions. split_and!.
  - intros b Hb. destruct bounds; simplify_eq/=. by destruct H.
  - intros k b b'. by apply chained_next with 0 n.
  - intros b. by apply chained_last with 0.
  - intros b Hb. by apply (chained_inside _ _ _ _ H).
  - intros i Hi. apply (chained_cover _ _ _ _ H). lia.
  - intros b i Hb Hi. destruct (chained_inside _ _ _ _ H Hb). lia.
  - intros k k' b b'. by apply chained_ascending with 0 n.
Qed.

Lemma div_fps_ok idx fps :
  ¬ (fps == 0)%Q → div_fps idx fps = Ok (inject_Z (Z.of_nat idx) / fps)%Q.
Proof.
  intros H. unfold div_fps. destruct (Qeq_bool fps 0) eqn:E; [|done].
  by apply Qeq_bool_iff in E.
Qed.

Lemma close_scene_ok caps fps i scs cur :
  ¬ (fps == 0)%Q → segmenter_inv caps fps i scs cur →
  close_scene fps cur = Ok (scene_of caps fps (start_idx cur, i)).
Proof.
  intros Hfps (bounds & _ & _ & _ & He & Hc). unfold close_scene.
  rewrite !div_fps_ok by done. simpl. unfold scene_of. simpl.
  by rewrite Hc, He.
Qed.

Lemma take_range_snoc (caps : list string) s i :
  s ≤ i → i < length caps →
  take (S i - s) (drop s caps) = take (i - s) (drop s caps) ++ [item caps i].
Proof.
  intros Hs Hi. destruct (lookup_lt_is_Some_2 caps i Hi) as [x Hx].
  replace (S i - s) with (S (i - s)) by lia.
  unfold item. rewrite Hx. simpl. apply take_S_r.
  rewrite lookup_drop. by replace (s + (i - s)) with i by lia.
Qed.

(** Appending the visited caption to the open scene keeps the invariant. *)
Lemma segmenter_inv_append caps fps i scs cur g :
  i < length caps → segmenter_inv caps fps i scs cur →
  segmenter_inv caps fps (S i) scs
    (OpenScene (cur_captions cur ++ [item caps i]) (start_idx cur) (i + 1)
               (anchor cur) g).
Proof.
  intros Hi (bounds & Hs & Hch & Hlt & He & Hc).
  exists bounds. simpl. split_and!; [done | done | lia | lia |].
  by rewrite take_range_snoc, Hc by lia.
Qed.

(** Closing the open scene and opening a new one at the visited caption
    keeps the invariant. *)
Lemma segmenter_inv_split caps fps i scs cur :
  i < length caps → segmenter_inv caps fps i scs cur →
  segmenter_inv caps fps (S i) (scs ++ [scene_of caps fps (start_idx cur, i)])
    (OpenScene [item caps i] i (i + 1) (item caps i) 0).
Proof.
  intros Hi (bounds & Hs & Hch & Hlt & He & Hc).
  exists (bounds ++ [(start_idx cur, i)]). simpl. split_and!.
  - by rewrite fmap_app, Hs.
  - by apply chained_snoc.
  - lia.
  - lia.
  - rewrite take_range_snoc by lia. by rewrite Nat.sub_diag.
Qed.

(** The loop returns, and the invariant holds when it does. *)
Lemma scene_loop_inv caps threshold max_gap fps m : ∀ i scs cur,
  ¬ (fps == 0)%Q → i + m = length caps →
  segmenter_inv caps fps i scs cur →
  ∃ scs' cur',
    scene_loop caps threshold max_gap fps (seq i m) scs cur = Ok (scs', cur')
    ∧ segmenter_inv caps fps (length caps) scs' cur'.
Proof.
  induction m as [|m IH]; intros i scs cur Hfps Hlen Hinv; simpl.
  - replace (length caps) with i by lia. eauto.
  - destruct (_ || _).
    + apply IH; [done | lia |]. apply segmenter_inv_append; [lia | done].
    + destruct (_ <? _)%Z.
      * apply IH; [done | lia |]. apply segmenter_inv_append; [lia | done].
      * rewrite (close_scene_ok caps fps i scs cur) by done. simpl.
        apply IH; [done | lia |]. apply segmenter_inv_split; [lia | done].
Qed.

(** C1: on the empty caption list the segmenter returns no scene; on a
    non-empty list (and an [fps] other than 0, for which the division of
    the code raises) it returns the scenes of a non-empty list of index
    ranges that partition [0, n): the first range starts at 0, each next
    one starts where the one before it ends, the last one ends at n, every
    range is non-empty, and every index below n lies in a range. *)
Theorem categorize_scenes_partition caps threshold max_gap fps :
  categorize_scenes [] threshold max_gap fps = Ok []
  ∧ (caps ≠ [] → ¬ (fps == 0)%Q →
       ∃ bounds,
         categorize_scenes caps threshold max_gap fps
         = Ok (scene_of caps fps <$> bounds)
         ∧ bounds ≠ []
         ∧ partitions (length caps) bounds).
Proof.
  split; [done|]. intros Hne Hfps.
  destruct caps as [|c0 caps']; [done|]. unfold categorize_scenes.
  set (caps := c0 :: caps').
  destruct (scene_loop_inv caps threshold max_gap fps (length caps - 1) 1 []
              (OpenScene [c0] 0 1 c0 0)) as (scs & cur & Hloop & Hinv).
  - done.
  - simpl. lia.
  - exists []. simpl. split_and!; [done | done | lia | done | done].
  - rewrite Hloop. simpl.
    rewrite (close_scene_ok caps fps (length caps) scs cur) by done. simpl.
    destruct Hinv as (bounds & Hs & Hch & Hlt & He & Hc).
    exists (bounds ++ [(start_idx cur, length caps)]). split_and!.
    + by rewrite fmap_app, Hs.
    + by destruct bounds.
    + apply chained_partitions. by apply chained_snoc.
Qed.

(** The theorem at the one-caption list ["hello world"] with fps 1.0:
    one scene, from time 0 to time 1. *)
Lemma categorize_scenes_partition_witness :
  ∃ bounds,
    categorize_scenes ["hello world"] (6 # 10) 1 1
    = Ok (scene_of ["hello world"] 1 <$> bounds)
    ∧ bounds ≠ []
    ∧ partitions 1 bounds.
Proof.
  pose proof (categorize_scenes_partition ["hello world"] (6 # 10) 1 1) as (_ & H).
  apply H; [discriminate | by vm_compute].
Defined.

(** With [fps = 0.0] the first division raises: on a non-empty list the
    segmenter returns nothing. *)
Lemma scene_loop_zero_fps caps threshold max_gap fps idxs : ∀ scs cur,
  (fps == 0)%Q →
  scene_loop caps threshold max_gap fps idxs scs cur = Err ZeroDivisionError
  ∨ ∃ cur', scene_loop caps threshold max_gap fps idxs scs cur = Ok (scs, cur').
Proof.
  intros scs cur Hfps. revert cur.
  induction idxs as [|i idxs IH]; intros cur; simpl; [eauto|].
  destruct (_ || _); [apply IH|]. destruct (_ <? _)%Z; [apply IH|].
  left. unfold close_scene, div_fps.
  by rewrite (proj2 (Qeq_bool_iff fps 0) Hfps).
Qed.

Lemma categorize_scenes_zero_fps caps threshold max_gap fps :
  caps ≠ [] → (fps == 0)%Q →
  categorize_scenes caps threshold max_gap fps = Err ZeroDivisionError.
Proof.
  intros Hne Hfps. destruct caps as [|c0 caps']; [done|].
  unfold categorize_scenes.
  destruct (scene_loop_zero_fps (c0 :: caps') threshold max_gap fps
              (seq 1 (length (c0 :: caps') - 1)) [] (OpenScene [c0] 0 1 c0 0) Hfps)
    as [->|[cur' ->]]; [done|].
  simpl. unfold close_scene, div_fps.
  by rewrite (proj2 (Qeq_bool_iff fps 0) Hfps).
Qed.

(** ** The emotion stage *)

Section EmotionStage.
Context {Frame Image : Type}.
Variable env : collaborators Frame Image.

Lemma emotion_loop_records c times : ∀ emotions,
  (∀ t, t ∈ times → ∃ image, frame_ready env c t image) →
  ∃ records,
    emotion_loop env c times emotions = Ok (emotions ++ records)
    ∧ length records = length times
    ∧ (∀ i t, times !! i = Some t →
         ∃ image, frame_ready env c t image ∧ records !! i = Some (sample_of env t image)).
Proof.
  induction times as [|t times IH]; intros emotions Hready; simpl.
  - exists []. by rewrite app_nil_r.
  - destruct (Hready t) as (image & frame & Hf & Hr); [left|].
    rewrite Hf. simpl. rewrite Hr. simpl.
    destruct (IH (emotions ++ [sample_of env t image])) as (records & Hloop & Hlen & Hrec).
    { intros t' Ht'. apply Hready. by right. }
    exists (sample_of env t image :: records). split_and!.
    + unfold sample_of in Hloop. rewrite Hloop. by rewrite <- app_assoc.
    + simpl. by rewrite Hlen.
    + intros [|i] t' Hi; simpl in Hi.
      * simplify_eq. exists image. split; [by exists frame | done].
      * by apply Hrec.
Qed.

End EmotionStage.

(** C7, the claim as stated fails: two time samples are requested, the
    frame of the second one cannot be read, and the stage raises instead
    of returning two records. *)
Lemma analyze_emotions_frame_failure_escalates :
  np_arange 2 1 = Ok [0%Q; 1%Q]
  ∧ analyze_emotions unreadable_frame_env "video.mp4" 1
    = Err (Exception "cannot read frame").
Proof. split; by vm_compute. Qed.

(** C7, amended: when the model loads, the clip opens and the frame of
    every requested time sample is fetched and resized, the stage returns
    exactly one record per requested time sample, in order; a failure of
    the classification of a sample is caught and encoded inline as the
    record with dominant_emotion "error", no scores, num_faces 0 and the
    description of the failure, and the other samples are unaffected. *)
Theorem analyze_emotions_contains_classifier_failures
    {Frame Image : Type} (env : collaborators Frame Image)
    (video_path : string) (sample_rate : Q) (c : clip Frame) (times : list Q) :
  get_emotion_model env = Ok tt →
  VideoFileClip env video_path = Ok c →
  np_arange (duration c) sample_rate = Ok times →
  (∀ t, t ∈ times → ∃ image, frame_ready env c t image) →
  ∃ records,
    analyze_emotions env video_path sample_rate = Ok records
    ∧ length records = length times
    ∧ (∀ i t, times !! i = Some t →
         ∃ image, frame_ready env c t image
           ∧ records !! i
             = Some (match classify env image with
                     | Ok (dominant, scores) => EmotionSample t dominant scores 1 None
                     | Err e => EmotionSample t "error" ∅ 0 (Some (str_of_exn e))
                     end)).
Proof.
  intros Hm Hc Ht Hready. unfold analyze_emotions.
  rewrite Hm. simpl. rewrite Hc. simpl. rewrite Ht. simpl.
  destruct (emotion_loop_records env c times [] Hready) as (records & Hl & Hlen & Hrec).
  exists records. by split_and!.
Qed.

(** The theorem on that run: two records, the second one the inline
    error record. *)
Lemma analyze_emotions_contains_classifier_failures_witness :
  ∃ records,
    analyze_emotions failing_classifier_env "video.mp4" 1 = Ok records
    ∧ length records = 2
    ∧ records !! 1 = Some (EmotionSample 1 "error" ∅ 0 (Some "no face")).
Proof.
  destruct (analyze_emotions_contains_classifier_failures failing_classifier_env
              "video.mp4" 1
              (@Clip nat 2 (fun t => if Qeq_bool t 1 then Ok 1 else Ok 0))
              [0%Q; 1%Q] eq_refl eq_refl eq_refl) as (records & Hr & Hlen & Hrec).
  - intros t [->|[->|H]%elem_of_cons]%elem_of_cons.
    + exists 0, 0. by split.
    + exists 1, 1. by split.
    + inversion H.
  - exists records. split_and!; [exact Hr | exact Hlen |].
    destruct (Hrec 1 1%Q eq_refl) as (image & (frame & Hf & Hi) & Hs).
    simpl in Hf, Hi. simplify_eq. exact Hs.
Defined.

(** ** The job pipeline *)

Section TaskProperties.
Context {Frame Image : Type}.
Variable env : collaborators Frame Image.
Variable store : Z → string → result unit.

(** One step through the [try] block: case on whether the next store or
    the next collaborator returns or raises. *)
Ltac next_outcome env store :=
  lazymatch goal with
  | |- context [match store ?p ?s with _ => _ end] =>
      destruct (store p s) as [[]|?]
  | |- context [match transcribe_with_whisper env ?x with _ => _ end] =>
      destruct (transcribe_with_whisper env x)
  | |- context [match extract_frames env ?x ?y with _ => _ end] =>
      destruct (extract_frames env x y)
  | |- context [match caption_frames env ?x with _ => _ end] =>
      destruct (caption_frames env x)
  | |- context [match categorize_scenes ?x ?y ?z ?u with _ => _ end] =>
      destruct (categorize_scenes x y z u)
  | |- context [match analyze_emotions env ?x ?y with _ => _ end] =>
      destruct (analyze_emotions env x y)
  end; simpl.

(** The run stored the first [n] records of the schedule. *)
Ltac stored n :=
  exists n; rewrite ?app_nil_r;
  split_and!;
    [ done | done | done
    | intros; first [discriminate | lia]
    | intros; first [discriminate | lia] ].

(** The [try] block leaves the files alone and stores a prefix of the
    schedule: all of it when it returns, a proper prefix when it raises. *)
Lemma run_stages_trace video_path w :
  ∃ n,
    trace (run_stages env store video_path w).2 = trace w ++ take n schedule_events
    ∧ files (run_stages env store video_path w).2 = files w
    ∧ locked (run_stages env store video_path w).2 = locked w
    ∧ (∀ v, (run_stages env store video_path w).1 = Ok v → n = 8)
    ∧ (∀ e, (run_stages env store video_path w).1 = Err e → n < 8).
Proof.
  unfold run_stages, task_bind, update_state, call, task_ret.
  repeat next_outcome env store; rewrite <- ?app_assoc; simpl;
    first [ stored 8 | stored 7 | stored 6 | stored 5 | stored 4
          | stored 3 | stored 2 | stored 1 | stored 0 ].
Qed.

Lemma percents_app evs1 evs2 : percents (evs1 ++ evs2) = percents evs1 ++ percents evs2.
Proof.
  induction evs1 as [|[p step|path] evs1 IH]; simpl; [done | by rewrite IH | done].
Qed.

Lemma percents_take_schedule n : percents (take n schedule_events) = take n schedule.
Proof. do 9 (destruct n as [|n]; [done|]). done. Qed.

Lemma take_schedule_sorted n i j p q :
  i ≤ j → take n schedule !! i = Some p → take n schedule !! j = Some q → (p <= q)%Z.
Proof.
  intros Hij Hi Hj.
  apply lookup_take_Some in Hi as [Hi _]. apply lookup_take_Some in Hj as [Hj _].
  do 8 (destruct i as [|i]; [do 8 (destruct j as [|j]; [simplify_eq/=; lia|]); done|]).
  done.
Qed.

Lemma take_schedule_events_progress n e : e ∈ take n schedule_events → is_progress e.
Proof.
  intros (i & He & _)%elem_of_take.
  do 8 (destruct i as [|i]; [by simplify_eq/=|]). done.
Qed.

(** The whole task: the [finally] block calls [os.remove] once, after the
    stages, and swallows its [OSError]. *)
Lemma process_video_task_trace video_path w :
  ∃ n,
    trace (process_video_task env store video_path w).2
    = trace w ++ take n schedule_events ++ [Remove video_path]
    ∧ (video_path ∉ locked w →
       video_path ∉ files (process_video_task env store video_path w).2)
    ∧ (process_video_task env store video_path w).1
      = (run_stages env store video_path w).1
    ∧ (∀ v, (process_video_task env store video_path w).1 = Ok v → n = 8).
Proof.
  destruct (run_stages_trace video_path w) as (n & Htr & Hf & Hl & Hok & _).
  exists n. revert Htr Hf Hl Hok.
  unfold process_video_task, try_finally, except_OSError_pass, os_remove.
  destruct (run_stages env store video_path w) as [r w1]. simpl.
  intros Htr Hf Hl Hok. rewrite Hf, Hl, Htr.
  destruct (bool_decide (video_path ∈ files w)) eqn:Ef;
    destruct (bool_decide (video_path ∈ locked w)) eqn:El; simpl;
    (split_and!; [by rewrite app_assoc | | done | done]).
  - intros Hfree. by apply bool_decide_eq_true in El.
  - intros _ [_ Hne]%elem_of_difference. apply Hne. by apply elem_of_singleton.
  - intros Hfree. by apply bool_decide_eq_true in El.
  - intros _. by apply bool_decide_eq_false in Ef.
Qed.

(** C8: on every run of the task, whether the stages complete, one of
    them raises or the progress store raises, [os.remove] is called on
    the input file exactly once, after every progress record of the run;
    the file is gone afterwards unless the system refuses the removal, and
    the outcome of the run is the outcome of the stages. *)
Theorem process_video_task_cleanup video_path w :
  ∃ evs,
    trace (process_video_task env store video_path w).2
    = trace w ++ evs ++ [Remove video_path]
    ∧ (∀ e, e ∈ evs → is_progress e)
    ∧ (video_path ∉ locked w →
       video_path ∉ files (process_video_task env store video_path w).2)
    ∧ (process_video_task env store video_path w).1
      = (run_stages env store video_path w).1.
Proof.
  destruct (process_video_task_trace video_path w) as (n & Htr & Hgone & Hout & _).
  exists (take n schedule_events).
  split_and!; [done | apply take_schedule_events_progress | done | done].
Qed.

End TaskProperties.

(** The cleanup theorem on a run that completes: the uploaded file is
    gone. *)
Lemma process_video_task_cleanup_witness :
  "video.mp4" ∉ files (process_video_task failing_classifier_env
                         (fun _ _ => Ok tt) "video.mp4" uploaded_world).2.
Proof.
  destruct (process_video_task_cleanup failing_classifier_env (fun _ _ => Ok tt)
              "video.mp4" uploaded_world) as (evs & _ & _ & Hgone & _).
  apply Hgone. simpl. apply not_elem_of_empty.
Defined.

(** ** The similarity scorer *)

Lemma total_app l1 l2 : total (l1 ++ l2) = total l1 + total l2.
Proof.
  induction l1 as [|blk l1 IH]; simpl; [done|]. rewrite IH. lia.
Qed.

Lemma j2lenget_bounded alo blo bhi i j2len j :
  row_bounded alo blo bhi i j2len → blo ≤ j →
  j2lenget j2len j ≤ i - alo ∧ j2lenget j2len j + 1 ≤ j + 1 - blo.
Proof.
  intros Hrow Hj. destruct j as [|j']; simpl; [lia|].
  destruct (j2len !! j') as [v|] eqn:E; simpl; [|lia].
  destruct (Hrow _ _ E) as (? & ? & ? & ?). lia.
Qed.

Section MatcherBounds.
Context {A : Type} `{EqDecision A}.
Variables a b : list A.

(** The inner loop keeps the best block inside the window, and the new
    row within its bounds; this is also why [i + 1 - k] and [j + 1 - k]
    are the [i-k+1] and [j-k+1] of the library. *)
Lemma scan_row_bounds alo ahi blo bhi i j2len js : ∀ newj2len best,
  alo ≤ i < ahi →
  row_bounded alo blo bhi i j2len →
  row_bounded alo blo bhi (S i) newj2len →
  inside alo ahi blo bhi best →
  row_bounded alo blo bhi (S i) (scan_row i blo bhi js j2len newj2len best).1
  ∧ inside alo ahi blo bhi (scan_row i blo bhi js j2len newj2len best).2.
Proof.
  induction js as [|j js IH]; intros newj2len best Hi Hprev Hnew Hbest; simpl.
  - done.
  - destruct (Nat.ltb_spec j blo) as [?|Hlo]; [by apply IH|].
    destruct (Nat.leb_spec bhi j) as [?|Hhi]; [done|].
    destruct (j2lenget_bounded alo blo bhi i j2len j Hprev Hlo) as [Hk1 Hk2].
    apply IH; [done | done | |].
    + intros j' v. rewrite lookup_insert. case_decide as Hj.
      * intros [= <-]. subst j'. lia.
      * apply Hnew.
    + destruct (Nat.ltb_spec best.2 (j2lenget j2len j + 1)); [|done].
      unfold inside. simpl. lia.
Qed.

Lemma scan_rows_bounds alo ahi blo bhi m : ∀ i j2len best,
  alo ≤ i → i + m ≤ ahi →
  row_bounded alo blo bhi i j2len →
  inside alo ahi blo bhi best →
  inside alo ahi blo bhi (scan_rows a b (seq i m) blo bhi j2len best).
Proof.
  induction m as [|m IH]; intros i j2len best Hlo Hhi Hrow Hbest; simpl; [done|].
  set (js := match a !! i with Some x => b2j_get b x | None => [] end).
  destruct (scan_row_bounds alo ahi blo bhi i j2len js ∅ best) as [Hrow' Hbest'];
    [lia | done | | done |].
  { intros j v. by rewrite lookup_empty. }
  destruct (scan_row i blo bhi js j2len ∅ best) as [newj2len best'].
  apply IH; [lia | lia | done | done].
Qed.

Lemma extend_left_inside junk alo ahi blo bhi besti : ∀ bestj bestsize,
  inside alo ahi blo bhi (besti, bestj, bestsize) →
  inside alo ahi blo bhi (extend_left a b junk alo blo besti bestj bestsize).
Proof.
  induction besti as [|i' IH]; intros bestj bestsize Hin; simpl; [done|].
  destruct bestj as [|j']; [done|].
  destruct (_ && _) eqn:E; [|done].
  apply andb_prop in E as [[[Hi Hj]%andb_prop _]%andb_prop _].
  apply Nat.ltb_lt in Hi, Hj.
  apply IH. unfold inside in *. simpl in *. lia.
Qed.

Lemma extend_right_inside junk alo ahi blo bhi steps : ∀ besti bestj bestsize,
  inside alo ahi blo bhi (besti, bestj, bestsize) →
  inside alo ahi blo bhi (extend_right a b junk steps ahi bhi besti bestj bestsize).
Proof.
  induction steps as [|steps IH]; intros besti bestj bestsize Hin; simpl; [done|].
  destruct (_ && _) eqn:E; [|done].
  apply andb_prop in E as [[[Hi Hj]%andb_prop _]%andb_prop _].
  apply Nat.ltb_lt in Hi, Hj.
  apply IH. unfold inside in *. simpl in *. lia.
Qed.

(** The longest match lies inside the window it was searched in. *)
Lemma find_longest_match_inside alo ahi blo bhi :
  alo ≤ ahi → blo ≤ bhi →
  inside alo ahi blo bhi (find_longest_match a b alo ahi blo bhi).
Proof.
  intros Ha Hb. unfold find_longest_match.
  pose proof (scan_rows_bounds alo ahi blo bhi (ahi - alo) alo ∅ (alo, blo, 0)) as H1.
  destruct (scan_rows a b _ blo bhi ∅ (alo, blo, 0)) as [[i1 j1] k1].
  pose proof (extend_left_inside false alo ahi blo bhi i1 j1 k1) as H2.
  destruct (extend_left a b false alo blo i1 j1 k1) as [[i2 j2] k2].
  pose proof (extend_right_inside false alo ahi blo bhi (ahi - (i2 + k2)) i2 j2 k2) as H3.
  destruct (extend_right a b false _ ahi bhi i2 j2 k2) as [[i3 j3] k3].
  pose proof (extend_left_inside true alo ahi blo bhi i3 j3 k3) as H4.
  destruct (extend_left a b true alo blo i3 j3 k3) as [[i4 j4] k4].
  apply extend_right_inside, H4, H3, H2, H1; [lia | lia | | ].
  - intros j v. by rewrite lookup_empty.
  - unfold inside. simpl. lia.
Qed.

(** The blocks found in a window are disjoint parts of both of its
    sides: their total size is at most the length of either side. *)
Lemma matching_blocks_total fuel : ∀ alo ahi blo bhi,
  alo ≤ ahi → blo ≤ bhi →
  total (matching_blocks a b fuel alo ahi blo bhi) ≤ ahi - alo
  ∧ total (matching_blocks a b fuel alo ahi blo bhi) ≤ bhi - blo.
Proof.
  induction fuel as [|fuel IH]; intros alo ahi blo bhi Ha Hb; simpl; [lia|].
  pose proof (find_longest_match_inside alo ahi blo bhi Ha Hb) as Hin.
  destruct (find_longest_match a b alo ahi blo bhi) as [[i j] k].
  destruct Hin as (Hi1 & Hi2 & Hj1 & Hj2). simpl in *.
  destruct (k =? 0); [simpl; lia|].
  rewrite total_app. simpl.
  assert (Hl : total (if (alo <? i) && (blo <? j)
                      then matching_blocks a b fuel alo i blo j else []) ≤ i - alo
               ∧ total (if (alo <? i) && (blo <? j)
                        then matching_blocks a b fuel alo i blo j else []) ≤ j - blo).
  { destruct ((alo <? i) && (blo <? j)); [apply IH; lia | simpl; lia]. }
  assert (Hr : total (if (i + k <? ahi) && (j + k <? bhi)
                      then matching_blocks a b fuel (i + k) ahi (j + k) bhi else [])
               ≤ ahi - (i + k)
               ∧ total (if (i + k <? ahi) && (j + k <? bhi)
                        then matching_blocks a b fuel (i + k) ahi (j + k) bhi else [])
                 ≤ bhi - (j + k)).
  { destruct ((i + k <? ahi) && (j + k <? bhi)); [apply IH; lia | simpl; lia]. }
  lia.
Qed.

Lemma matches_le : matches a b ≤ length a ∧ matches a b ≤ length b.
Proof.
  unfold matches, get_matching_blocks.
  pose proof (matching_blocks_total (length a) 0 (length a) 0 (length b)) as H.
  fold (total (matching_blocks a b (length a) 0 (length a) 0 (length b))).
  lia.
Qed.

(** The depth bound of [matching_blocks] is not felt: every bound of at
    least [ahi - alo] gives the same blocks, so [get_matching_blocks] is
    the result of the library's loop. *)
Lemma matching_blocks_fuel fuel1 : ∀ fuel2 alo ahi blo bhi,
  alo ≤ ahi → blo ≤ bhi → ahi - alo ≤ fuel1 → ahi - alo ≤ fuel2 →
  matching_blocks a b fuel1 alo ahi blo bhi = matching_blocks a b fuel2 alo ahi blo bhi.
Proof.
  induction fuel1 as [|fuel1 IH]; intros fuel2 alo ahi blo bhi Ha Hb H1 H2.
  - destruct fuel2 as [|fuel2]; simpl; [done|].
    pose proof (find_longest_match_inside alo ahi blo bhi Ha Hb) as Hin.
    destruct (find_longest_match a b alo ahi blo bhi) as [[i j] k].
    destruct Hin as (? & ? & _). simpl in *.
    destruct (Nat.eqb_spec k 0); [done | lia].
  - pose proof (find_longest_match_inside alo ahi blo bhi Ha Hb) as Hin.
    destruct fuel2 as [|fuel2]; simpl;
      destruct (find_longest_match a b alo ahi blo bhi) as [[i j] k];
      destruct Hin as (? & ? & ? & ?); simpl in *;
      destruct (Nat.eqb_spec k 0); try done; try lia.
    f_equal; [|f_equal].
    + destruct ((alo <? i) && (blo <? j)); [apply IH; lia | done].
    + destruct ((i + k <? ahi) && (j + k <? bhi)); [apply IH; lia | done].
Qed.

End MatcherBounds.

Section IndexLists.
Context {A : Type} `{EqDecision A}.

Lemma elem_of_indices_from (c : A) l : ∀ j0 j,
  j ∈ indices_from c l j0 ↔ j0 ≤ j ∧ l !! (j - j0) = Some c.
Proof.
  induction l as [|y l IH]; intros j0 j; simpl.
  - split; [intros H; inversion H | by intros [_ ?]].
  - assert (Htail : j ∈ indices_from c l (S j0) ↔ j0 < j ∧ (y :: l) !! (j - j0) = Some c).
    { rewrite IH. split.
      - intros [Hj Hl]. split; [lia|].
        by replace (j - j0) with (S (j - S j0)) by lia.
      - intros [Hj Hl]. split; [lia|].
        by replace (j - j0) with (S (j - S j0)) in Hl by lia. }
    destruct (decide (y = c)) as [->|Hne].
    + rewrite elem_of_cons, Htail. split.
      * intros [->|[? ?]]; [by rewrite Nat.sub_diag | split; [lia | done]].
      * intros [Hj Hl]. destruct (decide (j = j0)) as [->|?]; [by left|].
        right. split; [lia | done].
    + rewrite Htail. split; [intros [? ?]; split; [lia | done]|].
      intros [Hj Hl]. split; [|done].
      destruct (decide (j = j0)) as [->|?]; [|lia].
      rewrite Nat.sub_diag in Hl. simpl in Hl. congruence.
Qed.

(** [b2j] lists the positions in ascending order. *)
Lemma indices_from_sorted (c : A) l : ∀ j0, StronglySorted lt (indices_from c l j0).
Proof.
  induction l as [|y l IH]; intros j0; simpl; [constructor|].
  destruct (decide (y = c)); [|apply IH].
  constructor; [apply IH|].
  apply Forall_forall. intros j Hj.
  apply elem_of_indices_from in Hj. lia.
Qed.

End IndexLists.

Section MatcherIdentity.
Context {A : Type} `{EqDecision A}.
Variable x : list A.

Lemma run_indexed i : indexed x i = true → run x i = S (run_before x i).
Proof. intros H. destruct i; simpl; by rewrite H. Qed.

Lemma run_not_indexed i : indexed x i = false → run x i = 0.
Proof. intros H. destruct i; simpl; by rewrite H. Qed.

(** One row of [x] against itself: the best block stays on the diagonal,
    and the row records the run on the diagonal. *)
Lemma scan_row_diag i c j2len js : ∀ newj2len best,
  x !! i = Some c → popular x c = false →
  (∀ j, j ∈ js → x !! j = Some c) →
  StronglySorted lt js →
  row_inv x i j2len →
  best.1.1 = best.1.2 →
  (∀ i', i' < i → run x i' ≤ best.2) →
  (∀ j v, newj2len !! j = Some v → v ≤ run x j ∧ v ≤ run x i) →
  (i ∈ js ∨ (run x i ≤ best.2 ∧ newj2len !! i = Some (run x i))) →
  let r := scan_row i 0 (length x) js j2len newj2len best in
  r.2.1.1 = r.2.1.2
  ∧ (∀ i', i' ≤ i → run x i' ≤ r.2.2)
  ∧ (∀ j v, r.1 !! j = Some v → v ≤ run x j ∧ v ≤ run x i)
  ∧ r.1 !! i = Some (run x i).
Proof.
  intros newj2len best Hi Hc. revert newj2len best.
  assert (Hrun : ∀ j, x !! j = Some c → run x j = S (run_before x j)).
  { intros j Hj. apply run_indexed. unfold indexed. by rewrite Hj, Hc. }
  induction js as [|j js IH]; intros newj2len best Hjs Hsorted Hrow Hdiag Hbest Hnew Hdone;
    simpl.
  - destruct Hdone as [Hin|[Hle Hrec]]; [inversion Hin|].
    split_and!; [done | | done | done].
    intros i' Hi'. destruct (decide (i' = i)) as [->|?]; [done | apply Hbest; lia].
  - assert (Hj : x !! j = Some c) by (apply Hjs; left).
    assert (Hjn : j < length x) by (by eapply lookup_lt_Some).
    destruct (Nat.leb_spec (length x) j) as [?|_]; [lia|].
    set (k := j2lenget j2len j + 1).
    destruct Hrow as [Hcells Hcell].
    assert (Hkj : k ≤ run x j).
    { rewrite (Hrun j Hj). unfold k. destruct (Hcells j). lia. }
    assert (Hki : k ≤ run x i).
    { rewrite (Hrun i Hi). unfold k. destruct (Hcells j). lia. }
    apply StronglySorted_inv in Hsorted as [Hsorted Hhead].
    assert (Hpassed : i < j → run x i ≤ best.2).
    { intros Hlt. destruct Hdone as [Hin|[? _]]; [|done].
      apply elem_of_cons in Hin as [->|Hin]; [lia|].
      rewrite Forall_forall in Hhead. apply Hhead in Hin. lia. }
    apply IH.
    + intros j' Hj'. apply Hjs. by right.
    + done.
    + done.
    + destruct (Nat.ltb_spec best.2 k) as [Hlt|?]; [|done]. simpl.
      destruct (Nat.lt_trichotomy j i) as [Hji|[->|Hij]]; [|done|].
      * specialize (Hbest j Hji). lia.
      * specialize (Hpassed Hij). lia.
    + intros i' Hi'. specialize (Hbest i' Hi').
      destruct (Nat.ltb_spec best.2 k); simpl; lia.
    + intros j' v. rewrite lookup_insert. case_decide as Hjj.
      * intros [= <-]. by subst j'.
      * apply Hnew.
    + destruct (decide (j = i)) as [->|Hne].
      * right. assert (Hk : k = run x i).
        { rewrite (Hrun i Hi). unfold k. lia. }
        split; [|by rewrite lookup_insert_eq, Hk].
        destruct (Nat.ltb_spec best.2 k); simpl; lia.
      * destruct Hdone as [Hin|[Hle Hrec]].
        -- left. apply elem_of_cons in Hin as [?|?]; [congruence | done].
        -- right. split; [|by rewrite lookup_insert_ne].
           destruct (Nat.ltb_spec best.2 k); simpl; lia.
Qed.

Lemma row_inv_empty i : indexed x i = false → row_inv x (S i) ∅.
Proof.
  intros Hi. unfold row_inv. simpl. rewrite (run_not_indexed i Hi).
  split; [|done]. intros [|j]; simpl; [lia|]. rewrite lookup_empty. simpl. lia.
Qed.

(** All rows of [x] against itself: the best block is on the diagonal. *)
Lemma scan_rows_diag m : ∀ i j2len best,
  i + m = length x →
  row_inv x i j2len →
  best.1.1 = best.1.2 →
  (∀ i', i' < i → run x i' ≤ best.2) →
  (scan_rows x x (seq i m) 0 (length x) j2len best).1.1
  = (scan_rows x x (seq i m) 0 (length x) j2len best).1.2.
Proof.
  induction m as [|m IH]; intros i j2len best Hlen Hrow Hdiag Hbest; simpl; [done|].
  destruct (lookup_lt_is_Some_2 x i) as [c Hc]; [lia|]. rewrite Hc.
  unfold b2j_get. destruct (popular x c) eqn:Hpop; simpl.
  - assert (Hi : indexed x i = false) by (unfold indexed; by rewrite Hc, Hpop).
    apply IH; [lia | by apply row_inv_empty | done |].
    intros i' Hi'. destruct (decide (i' = i)) as [->|?]; [|apply Hbest; lia].
    rewrite (run_not_indexed i Hi). lia.
  - pose proof (scan_row_diag i c j2len (indices_from c x 0) ∅ best Hc Hpop) as Hscan.
    destruct Hscan as (Hd & Hb & Hcells & Hcell).
    + intros j [_ Hj]%elem_of_indices_from. by rewrite Nat.sub_0_r in Hj.
    + apply indices_from_sorted.
    + done.
    + done.
    + done.
    + intros j v. by rewrite lookup_empty.
    + left. apply elem_of_indices_from. split; [lia | by rewrite Nat.sub_0_r].
    + destruct (scan_row i 0 (length x) (indices_from c x 0) j2len ∅ best)
        as [newj2len best']. simpl in *.
      apply IH; [lia | | done |].
      * split; [|simpl; by rewrite Hcell].
        intros [|j]; simpl; [lia|].
        destruct (newj2len !! j) as [v|] eqn:E; simpl; [by apply Hcells | lia].
      * intros i' Hi'. apply Hb. lia.
Qed.

Lemma same_at_diag i : i < length x → same_at x x i i = true.
Proof.
  intros Hi. unfold same_at. destruct (lookup_lt_is_Some_2 x i Hi) as [c ->].
  by apply bool_decide_eq_true.
Qed.

Lemma junk_at_false (b : list A) y : junk_at b y = false.
Proof. unfold junk_at. by destruct (b !! y). Qed.

(** On the diagonal of [x] against itself the non-junk loops run to the
    two ends of the window. *)
Lemma extend_left_diag i : ∀ k,
  i ≤ length x → extend_left x x false 0 0 i i k = (0, 0, i + k).
Proof.
  induction i as [|i IH]; intros k Hi; simpl; [done|].
  rewrite junk_at_false, same_at_diag by lia. simpl.
  rewrite IH by lia. do 2 f_equal. lia.
Qed.

Lemma extend_right_diag steps : ∀ k,
  k + steps = length x →
  extend_right x x false steps (length x) (length x) 0 0 k = (0, 0, length x).
Proof.
  induction steps as [|steps IH]; intros k Hk; simpl.
  - do 2 f_equal. lia.
  - destruct (Nat.ltb_spec k (length x)) as [_|?]; [|lia].
    rewrite junk_at_false, same_at_diag by lia. simpl.
    apply IH. lia.
Qed.

(** With no junk the two junk loops do nothing. *)
Lemma extend_left_junk (a b : list A) alo blo i j k :
  extend_left a b true alo blo i j k = (i, j, k).
Proof.
  destruct i as [|i], j as [|j]; simpl; try done.
  rewrite junk_at_false. simpl. by rewrite andb_false_r.
Qed.

Lemma extend_right_junk (a b : list A) steps ahi bhi i j k :
  extend_right a b true steps ahi bhi i j k = (i, j, k).
Proof.
  destruct steps as [|steps]; simpl; [done|].
  rewrite junk_at_false. simpl. by rewrite andb_false_r.
Qed.

(** The longest match of [x] with itself is all of [x]. *)
Lemma find_longest_match_self :
  find_longest_match x x 0 (length x) 0 (length x) = (0, 0, length x).
Proof.
  unfold find_longest_match.
  pose proof (scan_rows_diag (length x - 0) 0 ∅ (0, 0, 0)) as Hdiag.
  pose proof (scan_rows_bounds x x 0 (length x) 0 (length x) (length x - 0) 0 ∅
                (0, 0, 0)) as Hin.
  destruct (scan_rows x x _ 0 (length x) ∅ (0, 0, 0)) as [[i1 j1] k1].
  simpl in Hdiag. rewrite <- Hdiag.
  - destruct Hin as (_ & Hle & _); [lia | lia | | |].
    + intros j v. by rewrite lookup_empty.
    + unfold inside. simpl. lia.
    + simpl in Hle. rewrite extend_left_diag by lia.
      rewrite extend_right_diag by lia.
      by rewrite extend_left_junk, extend_right_junk.
  - lia.
  - split; [|done]. intros [|j]; simpl; [lia|]. rewrite lookup_empty. simpl. lia.
  - done.
  - intros i' Hi'. lia.
Qed.

Lemma matches_self : matches x x = length x.
Proof.
  unfold matches, get_matching_blocks. destruct (length x) as [|n] eqn:Hn; [done|].
  simpl. rewrite <- Hn, find_longest_match_self, Hn. simpl.
  rewrite Nat.ltb_irrefl. simpl. lia.
Qed.

End MatcherIdentity.

Lemma ratio_self {A : Type} `{EqDecision A} (x : list A) : (ratio x x == 1)%Q.
Proof.
  unfold ratio. rewrite matches_self.
  destruct (Nat.eqb_spec (length x + length x) 0) as [|Hne]; [done|].
  replace (2 * Z.of_nat (length x))%Z with (Z.of_nat (length x + length x)) by lia.
  apply Qmult_inv_r. intros H.
  apply (proj1 (inject_Z_injective _ 0%Z)) in H. lia.
Qed.

Lemma ratio_range {A : Type} `{EqDecision A} (a b : list A) :
  (0 <= ratio a b)%Q ∧ (ratio a b <= 1)%Q.
Proof.
  unfold ratio. destruct (Nat.eqb_spec (length a + length b) 0) as [|Hne]; [done|].
  destruct (matches_le a b) as [Ha Hb].
  assert (Hpos : (0 < inject_Z (Z.of_nat (length a + length b)))%Q).
  { rewrite <- (Zlt_Qlt 0). lia. }
  split.
  - apply Qle_shift_div_l; [done|]. rewrite Qmult_0_l.
    rewrite <- (Zle_Qle 0). lia.
  - apply Qle_shift_div_r; [done|]. rewrite Qmult_1_l.
    rewrite <- Zle_Qle. lia.
Qed.

(** C4: [similar x x] is 1 for every string [x], the empty string
    included, and [similar a b] lies between 0 and 1 for all strings.
    The matcher finds all of [x] as one block when [x] is matched with
    itself, so the quotient is [2n / 2n]; and the blocks it finds are
    disjoint parts of both strings, so twice their total size is at most
    the sum of the two lengths. *)
Theorem similar_identity_and_range :
  (∀ x, (similar x x == 1)%Q)
  ∧ similar "" "" = 1%Q
  ∧ (∀ a b, (0 <= similar a b)%Q ∧ (similar a b <= 1)%Q)
  ∧ (∀ x, 2 * matches (list_ascii_of_string x) (list_ascii_of_string x)
          = length (list_ascii_of_string x) + length (list_ascii_of_string x))
  ∧ (∀ a b, 2 * matches (list_ascii_of_string a) (list_ascii_of_string b)
            ≤ length (list_ascii_of_string a) + length (list_ascii_of_string b)).
Proof.
  split_and!.
  - intros x. apply ratio_self.
  - reflexivity.
  - intros a b. apply ratio_range.
  - intros x. rewrite matches_self. lia.
  - intros a b.
    destruct (matches_le (list_ascii_of_string a) (list_ascii_of_string b)). lia.
Qed.

(** ** The matching blocks are common substrings *)

Section MatcherSoundness.
Context {A : Type} `{EqDecision A}.
Variables a b : list A.

Lemma common_empty i j : common a b (i, j, 0).
Proof. intros t Ht. simpl in Ht. lia. Qed.

Lemma scan_row_sound i blo bhi j2len js : ∀ newj2len best,
  (∀ j, j ∈ js → ∃ c, a !! i = Some c ∧ b !! j = Some c) →
  row_sound a b i j2len →
  row_sound a b (S i) newj2len →
  common a b best →
  row_sound a b (S i) (scan_row i blo bhi js j2len newj2len best).1
  ∧ common a b (scan_row i blo bhi js j2len newj2len best).2.
Proof.
  induction js as [|j js IH]; intros newj2len best Hjs Hprev Hnew Hbest; simpl.
  - done.
  - assert (Htail : ∀ j', j' ∈ js → ∃ c, a !! i = Some c ∧ b !! j' = Some c).
    { intros j' Hj'. apply Hjs. by right. }
    destruct (j <? blo); [by apply IH|].
    destruct (bhi <=? j); [done|].
    destruct (Hjs j) as (c & Hai & Hbj); [left|].
    set (k := j2lenget j2len j + 1).
    assert (Hk : k ≤ S i ∧ k ≤ j + 1 ∧ common a b (S i - k, j + 1 - k, k)).
    { unfold k. destruct j as [|j']; simpl.
      - split_and!; [lia | lia |]. intros t Ht. simpl in *.
        assert (t = 0) as -> by lia. exists c.
        split; [rewrite <- Hai | rewrite <- Hbj]; f_equal; lia.
      - destruct (j2len !! j') as [v|] eqn:E; simpl.
        + destruct (Hprev _ _ E) as (Hvi & Hvj & Hv). split_and!; [lia | lia |].
          intros t Ht. simpl in *. destruct (decide (t < v)) as [Hlt|Hge].
          * destruct (Hv t Hlt) as (c' & Ha & Hb). simpl in *. exists c'.
            split; [rewrite <- Ha | rewrite <- Hb]; f_equal; lia.
          * exists c. split; [rewrite <- Hai | rewrite <- Hbj]; f_equal; lia.
        + split_and!; [lia | lia |]. intros t Ht. simpl in *.
          assert (t = 0) as -> by lia. exists c.
          split; [rewrite <- Hai | rewrite <- Hbj]; f_equal; lia. }
    destruct Hk as (Hki & Hkj & Hkc).
    apply IH; [done | done | |].
    + intros j' v. rewrite lookup_insert. case_decide as Hj.
      * intros [= <-]. subst j'. done.
      * apply Hnew.
    + destruct (best.2 <? k); [|done].
      by replace (i + 1 - k) with (S i - k) by lia.
Qed.

Lemma scan_rows_sound blo bhi m : ∀ i j2len best,
  row_sound a b i j2len → common a b best →
  common a b (scan_rows a b (seq i m) blo bhi j2len best).
Proof.
  induction m as [|m IH]; intros i j2len best Hrow Hbest; simpl; [done|].
  set (js := match a !! i with Some x => b2j_get b x | None => [] end).
  destruct (scan_row_sound i blo bhi j2len js ∅ best) as [Hrow' Hbest']; [| done | | done |].
  - intros j Hj. unfold js in Hj. destruct (a !! i) as [x|]; [|inversion Hj].
    exists x. split; [done|]. unfold b2j_get in Hj.
    destruct (popular b x); [inversion Hj|].
    apply elem_of_indices_from in Hj as [_ Hj]. by rewrite Nat.sub_0_r in Hj.
  - intros j v. by rewrite lookup_empty.
  - destruct (scan_row i blo bhi js j2len ∅ best) as [newj2len best'].
    by apply IH.
Qed.

Lemma same_at_common x y :
  same_at a b x y = true → ∃ c, a !! x = Some c ∧ b !! y = Some c.
Proof.
  unfold same_at. destruct (a !! x) as [u|], (b !! y) as [v|]; try done.
  intros ->%bool_decide_eq_true. by exists v.
Qed.

Lemma extend_left_sound junk alo blo besti : ∀ bestj bestsize,
  common a b (besti, bestj, bestsize) →
  common a b (extend_left a b junk alo blo besti bestj bestsize).
Proof.
  induction besti as [|i' IH]; intros bestj bestsize Hc; simpl; [done|].
  destruct bestj as [|j']; [done|].
  destruct (_ && _) eqn:E; [|done].
  apply andb_prop in E as [_ (c & Ha & Hb)%same_at_common].
  apply IH. intros [|t] Ht; simpl in *.
  - exists c. by rewrite !Nat.add_0_r.
  - destruct (Hc t) as (c' & Ha' & Hb'); [simpl; lia|]. simpl in *. exists c'.
    split; [rewrite <- Ha' | rewrite <- Hb']; f_equal; lia.
Qed.

Lemma extend_right_sound junk steps ahi bhi : ∀ besti bestj bestsize,
  common a b (besti, bestj, bestsize) →
  common a b (extend_right a b junk steps ahi bhi besti bestj bestsize).
Proof.
  induction steps as [|steps IH]; intros besti bestj bestsize Hc; simpl; [done|].
  destruct (_ && _) eqn:E; [|done].
  apply andb_prop in E as [_ (c & Ha & Hb)%same_at_common].
  apply IH. intros t Ht. simpl in *.
  destruct (decide (t < bestsize)) as [Hlt|Hge]; [by apply Hc|].
  assert (t = bestsize) as -> by lia. by exists c.
Qed.

(** The longest match is a common substring. *)
Lemma find_longest_match_sound alo ahi blo bhi :
  common a b (find_longest_match a b alo ahi blo bhi).
Proof.
  unfold find_longest_match.
  pose proof (scan_rows_sound blo bhi (ahi - alo) alo ∅ (alo, blo, 0)) as H1.
  destruct (scan_rows a b _ blo bhi ∅ (alo, blo, 0)) as [[i1 j1] k1].
  pose proof (extend_left_sound false alo blo i1 j1 k1) as H2.
  destruct (extend_left a b false alo blo i1 j1 k1) as [[i2 j2] k2].
  pose proof (extend_right_sound false (ahi - (i2 + k2)) ahi bhi i2 j2 k2) as H3.
  destruct (extend_right a b false _ ahi bhi i2 j2 k2) as [[i3 j3] k3].
  pose proof (extend_left_sound true alo blo i3 j3 k3) as H4.
  destruct (extend_left a b true alo blo i3 j3 k3) as [[i4 j4] k4].
  apply extend_right_sound, H4, H3, H2, H1; [|apply common_empty].
  intros j v. by rewrite lookup_empty.
Qed.

(** Every matching block is a common substring. *)
Lemma matching_blocks_sound fuel : ∀ alo ahi blo bhi blk,
  blk ∈ matching_blocks a b fuel alo ahi blo bhi → common a b blk.
Proof.
  induction fuel as [|fuel IH]; intros alo ahi blo bhi blk Hin; simpl in Hin.
  - inversion Hin.
  - pose proof (find_longest_match_sound alo ahi blo bhi) as Hc.
    destruct (find_longest_match a b alo ahi blo bhi) as [[i j] k].
    destruct (k =? 0); [inversion Hin|].
    apply elem_of_app in Hin as [Hin|Hin].
    + destruct ((alo <? i) && (blo <? j)); [by eapply IH | inversion Hin].
    + apply elem_of_cons in Hin as [->|Hin]; [done|].
      destruct ((i + k <? ahi) && (j + k <? bhi)); [by eapply IH | inversion Hin].
Qed.

(** Blocks that fill both sides of a window: the two sides are equal. *)
Lemma matching_blocks_full fuel : ∀ alo ahi blo bhi,
  alo ≤ ahi → blo ≤ bhi →
  total (matching_blocks a b fuel alo ahi blo bhi) = ahi - alo →
  total (matching_blocks a b fuel alo ahi blo bhi) = bhi - blo →
  ∀ t, t < ahi - alo → a !! (alo + t) = b !! (blo + t).
Proof.
  induction fuel as [|fuel IH]; intros alo ahi blo bhi Ha Hb Hta Htb t Ht;
    simpl in *; [lia|].
  pose proof (find_longest_match_inside a b alo ahi blo bhi Ha Hb) as Hin.
  pose proof (find_longest_match_sound alo ahi blo bhi) as Hc.
  destruct (find_longest_match a b alo ahi blo bhi) as [[i j] k].
  destruct Hin as (Hi1 & Hi2 & Hj1 & Hj2). simpl in *.
  destruct (k =? 0); [simpl in *; lia|].
  rewrite total_app in Hta, Htb. simpl in Hta, Htb.
  set (left := if (alo <? i) && (blo <? j)
               then matching_blocks a b fuel alo i blo j else []) in *.
  set (right := if (i + k <? ahi) && (j + k <? bhi)
                then matching_blocks a b fuel (i + k) ahi (j + k) bhi else []) in *.
  assert (Hl : total left ≤ i - alo ∧ total left ≤ j - blo).
  { unfold left. destruct ((alo <? i) && (blo <? j));
      [apply matching_blocks_total; lia | simpl; lia]. }
  assert (Hr : total right ≤ ahi - (i + k) ∧ total right ≤ bhi - (j + k)).
  { unfold right. destruct ((i + k <? ahi) && (j + k <? bhi));
      [apply matching_blocks_total; lia | simpl; lia]. }
  destruct (decide (t < i - alo)) as [Hleft|Hnl].
  - unfold left in *. destruct ((alo <? i) && (blo <? j)).
    + apply IH with i j; lia.
    + simpl in *. lia.
  - destruct (decide (t < i - alo + k)) as [Hmid|Hnm].
    + destruct (Hc (t - (i - alo))) as (c & Hac & Hbc); [simpl; lia|]. simpl in *.
      replace (alo + t) with (i + (t - (i - alo))) by lia.
      replace (blo + t) with (j + (t - (i - alo))) by lia.
      by rewrite Hac, Hbc.
    + unfold right in *. destruct ((i + k <? ahi) && (j + k <? bhi)).
      * replace (alo + t) with (i + k + (t - (i - alo) - k)) by lia.
        replace (blo + t) with (j + k + (t - (i - alo) - k)) by lia.
        apply IH with ahi bhi; lia.
      * simpl in *. lia.
Qed.
End MatcherSoundness.

Lemma ratio_one_eq {A : Type} `{EqDecision A} (a b : list A) :
  (ratio a b == 1)%Q → a = b.
Proof.
  unfold ratio. intros H.
  destruct (Nat.eqb_spec (length a + length b) 0) as [H0|Hne].
  - destruct a, b; simpl in H0; try lia. done.
  - destruct (matches_le a b) as [Ha Hb].
    assert (Hden : ¬ (inject_Z (Z.of_nat (length a + length b)) == 0)%Q).
    { intros H0. apply (proj1 (inject_Z_injective _ 0%Z)) in H0. lia. }
    assert (Heq : (2 * Z.of_nat (matches a b))%Z = Z.of_nat (length a + length b)).
    { apply inject_Z_injective. rewrite <- (Qmult_div_r _ _ Hden), H. ring. }
    assert (Hm : matches a b = length a ∧ length a = length b) by lia.
    destruct Hm as [Hm Hlen].
    apply list_eq. intros t. destruct (decide (t < length a)) as [Ht|Ht].
    + apply (matching_blocks_full a b (length a) 0 (length a) 0 (length b));
        unfold matches, get_matching_blocks in Hm;
        fold (total (matching_blocks a b (length a) 0 (length a) 0 (length b))) in Hm;
        lia.
    + by rewrite !lookup_ge_None_2 by lia.
Qed.

Lemma ratio_positive_common {A : Type} `{EqDecision A} (a b : list A) :
  (0 < ratio a b)%Q → length a + length b ≠ 0 → ∃ c, c ∈ a ∧ c ∈ b.
Proof.
  unfold ratio. intros H Hne.
  destruct (Nat.eqb_spec (length a + length b) 0) as [?|_]; [done|].
  assert (Hm : 0 < matches a b).
  { destruct (matches a b) as [|m] eqn:E; [|lia]. exfalso.
    apply (Qlt_irrefl 0). eapply Qlt_le_trans; [exact H|].
    unfold Qdiv. simpl. rewrite Qmult_0_l. apply Qle_refl. }
  unfold matches, get_matching_blocks in Hm.
  assert (Hblk : ∃ blk, blk ∈ matching_blocks a b (length a) 0 (length a) 0 (length b)
                        ∧ 0 < blk.2).
  { induction (matching_blocks a b (length a) 0 (length a) 0 (length b))
      as [|blk l IH]; simpl in Hm; [lia|].
    destruct (decide (0 < blk.2)) as [?|?]; [exists blk; split; [left | done]|].
    destruct IH as (blk' & ? & ?); [lia|]. exists blk'. split; [by right | done]. }
  destruct Hblk as (blk & Hin & Hpos).
  destruct (matching_blocks_sound a b _ _ _ _ _ _ Hin 0 Hpos) as (c & Ha & Hb).
  exists c. split; by eapply list_elem_of_lookup_2.
Qed.

(** X1: a string compared with the empty string scores 0, unless both
    are empty. *)
Theorem similar_one_empty (a b : string) :
  (a = "" ∧ b ≠ "") ∨ (a ≠ "" ∧ b = "") → (similar a b == 0)%Q.
Proof.
  intros Hab. unfold similar, ratio.
  set (la := list_ascii_of_string a). set (lb := list_ascii_of_string b).
  destruct (matches_le la lb) as [Ha Hb].
  assert (Hlen : (length la = 0 ∧ length lb ≠ 0) ∨ (length la ≠ 0 ∧ length lb = 0)).
  { unfold la, lb. destruct Hab as [[-> Hb']|[Ha' ->]].
    - left. split; [done|]. by destruct b.
    - right. split; [|done]. by destruct a. }
  destruct (Nat.eqb_spec (length la + length lb) 0) as [?|_]; [lia|].
  replace (matches la lb) with 0 by lia. unfold Qdiv. simpl. apply Qmult_0_l.
Qed.

Lemma similar_one_empty_witness : (similar "" "a cat" == 0)%Q.
Proof.
  apply similar_one_empty. left. split; [reflexivity | discriminate].
Defined.

(** X2: the similarity is 1 exactly when the two strings are equal. *)
Theorem similar_one_iff_equal (a b : string) : (similar a b == 1)%Q ↔ a = b.
Proof.
  split.
  - intros H%ratio_one_eq.
    by rewrite <- (string_of_list_ascii_of_string a),
               <- (string_of_list_ascii_of_string b), H.
  - intros ->. apply ratio_self.
Qed.

(** X3: two strings that are not both empty and have a positive
    similarity have a character in common. *)
Theorem similar_positive_common (a b : string) :
  (0 < similar a b)%Q → a ≠ "" ∨ b ≠ "" →
  ∃ c, c ∈ list_ascii_of_string a ∧ c ∈ list_ascii_of_string b.
Proof.
  intros Hpos Hne. apply ratio_positive_common; [done|].
  destruct Hne as [Hne|Hne]; [destruct a | destruct b]; simpl; done || lia.
Qed.

Lemma similar_positive_common_witness :
  ∃ c, c ∈ list_ascii_of_string "a dog" ∧ c ∈ list_ascii_of_string "a cat".
Proof.
  apply similar_positive_common; [by vm_compute | left; discriminate].
Defined.

(** ** More on the scene segmenter *)

(** Whenever the segmenter returns, its scenes are the scenes of a chain
    of ranges from 0 to the number of captions. *)
Lemma categorize_scenes_chain caps threshold max_gap fps scs :
  categorize_scenes caps threshold max_gap fps = Ok scs →
  ∃ bounds, scs = scene_of caps fps <$> bounds ∧ chained 0 bounds (length caps).
Proof.
  intros Hret. destruct caps as [|c0 caps'].
  { simpl in Hret. injection Hret as <-. by exists []. }
  assert (Hfps : ¬ (fps == 0)%Q).
  { intros H0.
    by rewrite (categorize_scenes_zero_fps (c0 :: caps') threshold max_gap fps) in Hret. }
  unfold categorize_scenes in Hret. set (caps := c0 :: caps') in *.
  destruct (scene_loop_inv caps threshold max_gap fps (length caps - 1) 1 []
              (OpenScene [c0] 0 1 c0 0)) as (scs' & cur & Hloop & Hinv).
  - done.
  - simpl. lia.
  - exists []. simpl. split_and!; [done | done | lia | done | done].
  - rewrite Hloop in Hret. simpl in Hret.
    rewrite (close_scene_ok caps fps (length caps) scs' cur) in Hret by done.
    simpl in Hret. injection Hret as <-.
    destruct Hinv as (bounds & Hs & Hch & Hlt & He & Hc).
    exists (bounds ++ [(start_idx cur, length caps)]). split.
    + by rewrite fmap_app, Hs.
    + by apply chained_snoc.
Qed.

Lemma chained_concat (caps : list string) fps bounds : ∀ s e,
  chained s bounds e →
  concat (captions <$> (scene_of caps fps <$> bounds))
  = take (e - s) (drop s caps).
Proof.
  induction bounds as [|b bounds IH]; intros s e H; cbn [chained] in H.
  - subst. by rewrite Nat.sub_diag.
  - destruct H as (Hs & Hlt & H). rewrite !fmap_cons. cbn [concat].
    rewrite (IH _ _ H). subst s. cbn [scene_of captions].
    pose proof (chained_le _ _ _ H) as Hle.
    replace (e - b.1) with ((b.2 - b.1) + (e - b.2)) by lia.
    rewrite <- take_take_drop, drop_drop.
    by replace (b.1 + (b.2 - b.1)) with b.2 by lia.
Qed.

(** X4: the scenes hold the captions of the input, each once and in
    order: the caption lists of the returned scenes, one after the other,
    are the input list. *)
Theorem categorize_scenes_concat caps threshold max_gap fps scs :
  categorize_scenes caps threshold max_gap fps = Ok scs →
  concat (captions <$> scs) = caps.
Proof.
  intros (bounds & -> & Hch)%categorize_scenes_chain.
  rewrite (chained_concat caps fps bounds 0 (length caps) Hch).
  by rewrite Nat.sub_0_r, drop_0, firstn_all.
Qed.

Lemma categorize_scenes_concat_witness :
  ∃ scs, categorize_scenes example_captions (6 # 10) 0 1 = Ok scs
         ∧ concat (captions <$> scs) = example_captions.
Proof.
  eexists. split; [by vm_compute|].
  apply (categorize_scenes_concat example_captions (6 # 10) 0 1). by vm_compute.
Defined.



Lemma close_scene_captions fps cur s :
  close_scene fps cur = Ok s → captions s = cur_captions cur.
Proof.
  unfold close_scene, div_fps. destruct (Qeq_bool fps 0); simpl; [done|].
  by intros [= <-].
Qed.

Lemma scene_loop_tolerance caps threshold max_gap fps idxs : ∀ scs cur scs' cur',
  tolerance_inv max_gap scs cur →
  scene_loop caps threshold max_gap fps idxs scs cur = Ok (scs', cur') →
  tolerance_inv max_gap scs' cur'.
Proof.
  induction idxs as [|i idxs IH]; intros scs cur scs' cur' Hinv Hloop; simpl in Hloop.
  - by injection Hloop as <- <-.
  - destruct Hinv as (Hscs & Hgap & Hlen).
    destruct (_ || _).
    + apply (IH _ _ _ _) in Hloop; [done|]. split_and!; simpl; [done | lia |].
      rewrite length_app. simpl. lia.
    + destruct (Z.ltb_spec (gap cur) max_gap) as [Hlt|Hge].
      * apply (IH _ _ _ _) in Hloop; [done|]. split_and!; simpl; [done | lia |].
        rewrite length_app. simpl. lia.
      * destruct (close_scene fps cur) as [s|e] eqn:Hclose; [|done].
        simpl in Hloop. apply (IH _ _ _ _) in Hloop; [done|].
        split_and!; simpl; [| lia | lia].
        intros s' [Hin|Hin%list_elem_of_singleton]%elem_of_app; [by apply Hscs|].
        subst s'. rewrite (close_scene_captions _ _ _ Hclose). lia.
Qed.

(** X6: a scene is closed only after [max_gap] outliers in a row were
    tolerated in it: every returned scene but the last has more than
    [max_gap] captions. *)
Theorem categorize_scenes_min_length caps threshold max_gap fps scs k s :
  categorize_scenes caps threshold max_gap fps = Ok scs →
  scs !! k = Some s → S k < length scs →
  (max_gap < Z.of_nat (length (captions s)))%Z.
Proof.
  intros Hret Hk Hlast. destruct caps as [|c0 caps']; [by simplify_eq/=|].
  unfold categorize_scenes in Hret.
  destruct (scene_loop _ _ _ _ _ _ _) as [[scs' cur]|e] eqn:Hloop; [|done].
  simpl in Hret. destruct (close_scene fps cur) as [s'|e]; [|done].
  simpl in Hret. injection Hret as <-.
  apply scene_loop_tolerance in Hloop as (Hscs & _).
  - apply Hscs. rewrite length_app in Hlast. simpl in Hlast.
    rewrite lookup_app_l in Hk by lia. by eapply list_elem_of_lookup_2.
  - split_and!; simpl; [|lia|lia]. intros ? H. inversion H.
Qed.

Lemma categorize_scenes_min_length_witness :
  (0 < Z.of_nat (length (captions (Scene ["a cat on a mat"; "a cat on a mat"] 0 2))))%Z.
Proof.
  apply (categorize_scenes_min_length example_captions (6 # 10) 0 1
           [Scene ["a cat on a mat"; "a cat on a mat"] 0 2;
            Scene ["a dog running"; "a dog runs fast"] 2 4] 0);
    [by vm_compute | reflexivity | simpl; lia].
Defined.

(** A run of captions each similar to the one before it stays in the
    open scene. *)
Lemma scene_loop_similar caps threshold max_gap fps m : ∀ i cur,
  i + m = length caps → 1 ≤ i →
  (∀ j, 0 < j < length caps →
     (threshold <= similar (item caps j) (item caps (j - 1)))%Q) →
  start_idx cur = 0 → cur_captions cur = take i caps →
  ∃ cur',
    scene_loop caps threshold max_gap fps (seq i m) [] cur = Ok ([], cur')
    ∧ start_idx cur' = 0
    ∧ end_idx cur' = (if m is 0 then end_idx cur else length caps)
    ∧ cur_captions cur' = caps.
Proof.
  induction m as [|m IH]; intros i cur Hlen Hi Hsim Hs Hc; simpl.
  - exists cur. split_and!; [done | done | done |].
    rewrite Hc. apply take_ge. lia.
  - rewrite (proj2 (Qle_bool_iff _ _) (Hsim i ltac:(lia))). simpl.
    destruct (IH (S i) (OpenScene (cur_captions cur ++ [item caps i]) (start_idx cur)
                         (i + 1) (anchor cur) 0)) as (cur' & Hloop & Hs' & He' & Hc');
      [lia | lia | done | done | |].
    + simpl. rewrite Hc. destruct (lookup_lt_is_Some_2 caps i) as [x Hx]; [lia|].
      unfold item. rewrite Hx. simpl. symmetry. by apply take_S_r.
    + exists cur'. split_and!; [done | done | | done].
      rewrite He'. simpl. destruct m; lia.
Qed.

Lemma one_scene_of_similar_run caps threshold max_gap fps :
  caps ≠ [] → ¬ (fps == 0)%Q →
  (∀ j, 0 < j < length caps →
     (threshold <= similar (item caps j) (item caps (j - 1)))%Q) →
  categorize_scenes caps threshold max_gap fps
  = Ok [Scene caps (inject_Z 0 / fps) (inject_Z (Z.of_nat (length caps)) / fps)].
Proof.
  intros Hne Hfps Hsim. destruct caps as [|c0 caps']; [done|].
  unfold categorize_scenes. set (caps := c0 :: caps') in *.
  destruct (scene_loop_similar caps threshold max_gap fps (length caps - 1) 1
              (OpenScene [c0] 0 1 c0 0)) as (cur & -> & Hs & He & Hc);
    [simpl; lia | lia | done | done | done |].
  simpl. unfold close_scene. rewrite !div_fps_ok by done. simpl.
  rewrite Hs, Hc, He. do 3 f_equal.
  destruct (length caps - 1) eqn:E; [|done]. simpl in *. do 2 f_equal. lia.
Qed.

(** X7: when every caption is at least [threshold]-similar to the
    caption before it, the segmenter returns one scene, which holds the
    whole list and runs from 0 to [n / fps]. *)
Theorem categorize_scenes_one_scene caps threshold max_gap fps :
  caps ≠ [] → ¬ (fps == 0)%Q →
  (∀ j, 0 < j < length caps →
     (threshold <= similar (item caps j) (item caps (j - 1)))%Q) →
  categorize_scenes caps threshold max_gap fps
  = Ok [Scene caps (inject_Z 0 / fps) (inject_Z (Z.of_nat (length caps)) / fps)].
Proof. apply one_scene_of_similar_run. Qed.

Lemma categorize_scenes_one_scene_witness :
  categorize_scenes ["a dog running"; "a dog runs fast"] (6 # 10) 0 1
  = Ok [Scene ["a dog running"; "a dog runs fast"] (inject_Z 0 / 1) (inject_Z 2 / 1)].
Proof.
  apply (categorize_scenes_one_scene ["a dog running"; "a dog runs fast"]);
    [discriminate | by vm_compute |].
  intros [|[|j]] Hj; simpl in Hj; [lia | by vm_compute | lia].
Defined.

(** X8: a list of identical captions is one scene, for every threshold
    of at most 1. *)
Theorem categorize_scenes_identical c n threshold max_gap fps :
  (threshold <= 1)%Q → ¬ (fps == 0)%Q →
  categorize_scenes (replicate (S n) c) threshold max_gap fps
  = Ok [Scene (replicate (S n) c) (inject_Z 0 / fps)
          (inject_Z (Z.of_nat (S n)) / fps)].
Proof.
  intros Hthr Hfps.
  rewrite one_scene_of_similar_run; [by rewrite length_replicate | done | done |].
  intros j Hj. rewrite length_replicate in Hj. unfold item.
  rewrite !lookup_replicate_2 by lia. simpl.
  rewrite (ratio_self (list_ascii_of_string c) : (similar c c == 1)%Q). done.
Qed.

Lemma categorize_scenes_identical_witness :
  categorize_scenes (replicate 3 "a cat") (6 # 10) 1 1
  = Ok [Scene (replicate 3 "a cat") (inject_Z 0 / 1) (inject_Z (Z.of_nat 3) / 1)].
Proof.
  apply (categorize_scenes_identical "a cat" 2); by vm_compute.
Defined.

Lemma above_one_not_similar threshold a b :
  (1 < threshold)%Q → Qle_bool threshold (similar a b) = false.
Proof.
  intros Hthr. destruct (Qle_bool threshold (similar a b)) eqn:E; [|done].
  apply Qle_bool_iff in E. exfalso. apply (Qlt_irrefl 1).
  eapply Qlt_le_trans; [exact Hthr|]. eapply Qle_trans; [exact E|].
  apply (ratio_range (list_ascii_of_string a) (list_ascii_of_string b)).
Qed.

(** With a threshold above 1 and no tolerance every visited caption
    closes the open scene. *)
Lemma scene_loop_split caps threshold max_gap fps m : ∀ p scs,
  (1 < threshold)%Q → (max_gap <= 0)%Z → ¬ (fps == 0)%Q →
  scene_loop caps threshold max_gap fps (seq (S p) m) scs
    (OpenScene [item caps p] p (S p) (item caps p) 0)
  = Ok (scs ++ (single_scene caps fps <$> seq p m),
        OpenScene [item caps (p + m)] (p + m) (S (p + m)) (item caps (p + m)) 0).
Proof.
  induction m as [|m IH]; intros p scs Hthr Hgap Hfps.
  - simpl. by rewrite app_nil_r, Nat.add_0_r.
  - cbn [seq scene_loop]. rewrite !above_one_not_similar by done.
    cbn [orb gap]. destruct (Z.ltb_spec 0 max_gap) as [?|_]; [lia|].
    unfold close_scene. rewrite !div_fps_ok by done. simpl.
    replace (p + 1) with (S p) by lia. rewrite IH by done.
    rewrite <- app_assoc. simpl.
    by replace (p + S m) with (S (p + m)) by lia.
Qed.

(** X9: with a threshold above 1 and [max_gap] at most 0 nothing is ever
    grouped: the segmenter returns one scene per caption. *)
Theorem categorize_scenes_all_split caps threshold max_gap fps :
  caps ≠ [] → (1 < threshold)%Q → (max_gap <= 0)%Z → ¬ (fps == 0)%Q →
  categorize_scenes caps threshold max_gap fps
  = Ok (single_scene caps fps <$> seq 0 (length caps)).
Proof.
  intros Hne Hthr Hgap Hfps. destruct caps as [|c0 caps']; [done|].
  unfold categorize_scenes. set (caps := c0 :: caps').
  change (OpenScene [c0] 0 1 c0 0) with (OpenScene [item caps 0] 0 1 (item caps 0) 0).
  rewrite scene_loop_split by done. simpl.
  unfold close_scene. rewrite !div_fps_ok by done. simpl. f_equal.
  rewrite Nat.sub_0_r.
  change ((single_scene caps fps <$> seq 0 (length caps'))
            ++ [single_scene caps fps (length caps')]
          = single_scene caps fps <$> seq 0 (S (length caps'))).
  by rewrite seq_S, fmap_app.
Qed.

Lemma categorize_scenes_all_split_witness :
  categorize_scenes ["a cat"; "a cat"] 2 0 1
  = Ok (single_scene ["a cat"; "a cat"] 1 <$> seq 0 2).
Proof.
  apply (categorize_scenes_all_split ["a cat"; "a cat"] 2 0 1);
    [discriminate | by vm_compute | lia | by vm_compute].
Defined.

(** ** More on the representative selector *)

Lemma pow2_pos e : (0 < pow2 e)%Q.
Proof.
  unfold pow2. destruct (Z.leb_spec 0 e) as [He|He].
  - rewrite <- (Zlt_Qlt 0). apply Z.pow_pos_nonneg; lia.
  - apply Qinv_lt_0_compat. rewrite <- (Zlt_Qlt 0). apply Z.pow_pos_nonneg; lia.
Qed.

Lemma round_half_even_nonneg m : (0 <= m)%Q → (0 <= round_half_even m)%Z.
Proof.
  intros Hm. assert (Hq : (0 <= Qfloor m)%Z).
  { change 0%Z with (Qfloor 0). by apply Qfloor_resp_le. }
  unfold round_half_even.
  destruct (_ ?= _)%Q; [destruct (Z.even (Qfloor m))| |]; lia.
Qed.

(** The rounded significand does not pass an integer above the exact
    one, nor an even integer less than half a unit below it. *)
Lemma round_half_even_le m j : (m <= inject_Z j)%Q → (round_half_even m <= j)%Z.
Proof.
  intros Hm. assert (Hq : (Qfloor m <= j)%Z).
  { rewrite <- (Qfloor_Z j). by apply Qfloor_resp_le. }
  unfold round_half_even.
  destruct (Qcompare_spec (m - inject_Z (Qfloor m)) (1 # 2)) as [He|Hl|Hg];
    [destruct (Z.even _); [done|]| done |].
  - assert (Hlt : (inject_Z (Qfloor m) < inject_Z j)%Q).
    { lra. }
    rewrite <- Zlt_Qlt in Hlt. lia.
  - assert (Hlt : (inject_Z (Qfloor m) < inject_Z j)%Q).
    { lra. }
    rewrite <- Zlt_Qlt in Hlt. lia.
Qed.

Lemma round_half_even_tie m j :
  Z.even j = true → (m <= inject_Z j + (1 # 2))%Q → (round_half_even m <= j)%Z.
Proof.
  intros Hev Hm. assert (Hq : (Qfloor m <= j)%Z).
  { assert (H : (Qfloor m < j + 1)%Z); [|lia].
    rewrite Zlt_Qlt. eapply Qle_lt_trans; [apply Qfloor_le|].
    eapply Qle_lt_trans; [exact Hm|]. rewrite inject_Z_plus.
    apply Qplus_lt_r. reflexivity. }
  destruct (decide (Qfloor m = j)) as [Hj|Hj].
  - unfold round_half_even. rewrite Hj.
    destruct (Qcompare_spec (m - inject_Z j) (1 # 2)) as [He|Hl|Hg];
      [by rewrite Hev | done |].
    exfalso. lra.
  - assert (Hq' : (Qfloor m + 1 <= j)%Z) by lia.
    unfold round_half_even.
    destruct (_ ?= _)%Q; [destruct (Z.even (Qfloor m))| |]; lia.
Qed.

Lemma float64_nonneg x : (0 <= x)%Q → (0 <= float64 x)%Q.
Proof.
  intros Hx. unfold float64.
  destruct (Qcompare_spec x 0) as [He|Hl|Hg].
  - apply Qle_refl.
  - exfalso. by apply (Qlt_not_le _ _ Hl).
  - apply Qmult_le_0_compat; [|apply Qlt_le_weak, pow2_pos].
    rewrite <- (Zle_Qle 0). apply round_half_even_nonneg.
    apply Qle_shift_div_l; [apply pow2_pos|]. by rewrite Qmult_0_l.
Qed.

Lemma float64_nonpos x : (x <= 0)%Q → (float64 x <= 0)%Q.
Proof.
  intros Hx. unfold float64.
  destruct (Qcompare_spec x 0) as [He|Hl|Hg].
  - apply Qle_refl.
  - apply (Qopp_le_compat 0).
    apply Qmult_le_0_compat; [|apply Qlt_le_weak, pow2_pos].
    rewrite <- (Zle_Qle 0). apply round_half_even_nonneg.
    apply Qle_shift_div_l; [apply pow2_pos|]. rewrite Qmult_0_l.
    apply (Qopp_le_compat x 0). by apply Qlt_le_weak.
  - exfalso. by apply (Qlt_not_le _ _ Hg).
Qed.

(** Rounding a positive number does not pass a number of its own grid
    that lies above it. *)
Lemma float64_le_grid x j :
  (0 < x)%Q → (x <= inject_Z j * pow2 (float_exponent x))%Q →
  (float64 x <= inject_Z j * pow2 (float_exponent x))%Q.
Proof.
  intros Hx Hj. unfold float64.
  destruct (Qcompare_spec x 0) as [He|Hl|Hg].
  - exfalso. rewrite He in Hx. by apply (Qlt_irrefl 0).
  - exfalso. apply (Qlt_irrefl 0). by eapply Qlt_trans.
  - apply Qmult_le_compat_r; [|apply Qlt_le_weak, pow2_pos].
    rewrite <- Zle_Qle. apply round_half_even_le.
    apply Qle_shift_div_r; [apply pow2_pos | done].
Qed.

Lemma float64_le_tie x j :
  (0 < x)%Q → Z.even j = true →
  (x <= (inject_Z j + (1 # 2)) * pow2 (float_exponent x))%Q →
  (float64 x <= inject_Z j * pow2 (float_exponent x))%Q.
Proof.
  intros Hx Hev Hj. unfold float64.
  destruct (Qcompare_spec x 0) as [He|Hl|Hg].
  - exfalso. rewrite He in Hx. by apply (Qlt_irrefl 0).
  - exfalso. apply (Qlt_irrefl 0). by eapply Qlt_trans.
  - apply Qmult_le_compat_r; [|apply Qlt_le_weak, pow2_pos].
    rewrite <- Zle_Qle. apply round_half_even_tie; [done|].
    apply Qle_shift_div_r; [apply pow2_pos | done].
Qed.

Lemma float_exponent_small x k :
  (0 < x)%Q → (x <= inject_Z k)%Q → (k <= 2 ^ 53)%Z →
  (float_exponent x <= 0)%Z ∨ (float_exponent x = 1 ∧ k = 2 ^ 53)%Z.
Proof.
  intros Hx Hk Hk53. unfold float_exponent.
  destruct (Qle_bool 1 x) eqn:H1.
  - apply Qle_bool_iff in H1.
    assert (Hf1 : (1 <= Qfloor x)%Z).
    { change 1%Z with (Qfloor 1). by apply Qfloor_resp_le. }
    assert (Hfk : (Qfloor x <= k)%Z).
    { rewrite <- (Qfloor_Z k). by apply Qfloor_resp_le. }
    assert (Hlg : (Z.log2 (Qfloor x) <= 53)%Z).
    { change 53%Z with (Z.log2 (2 ^ 53)). apply Z.log2_le_mono. lia. }
    destruct (decide (Z.log2 (Qfloor x) = 53%Z)) as [H53|Hn53]; [|left; lia].
    right. split; [lia|].
    pose proof (Z.log2_spec (Qfloor x) ltac:(lia)) as [Hlo _].
    rewrite H53 in Hlo. lia.
  - left. pose proof (Z.log2_up_nonneg (Qceiling (/ x))). lia.
Qed.

(** A float is not above an integer of at most [2 ^ 53] that the number
    it rounds is not above. *)
Lemma float64_le_int x k :
  (0 <= k <= 2 ^ 53)%Z → (x <= inject_Z k)%Q → (float64 x <= inject_Z k)%Q.
Proof.
  intros [Hk0 Hk53] Hx.
  destruct (Qlt_le_dec 0 x) as [Hpos|Hneg].
  - destruct (float_exponent_small x k Hpos Hx Hk53) as [He|[He ->]].
    + assert (Hgrid : (inject_Z k
                       == inject_Z (k * 2 ^ (- float_exponent x))
                          * pow2 (float_exponent x))%Q).
      { unfold pow2. destruct (Z.leb_spec 0 (float_exponent x)) as [H0|H0].
        - assert (float_exponent x = 0%Z) as -> by lia.
          change (2 ^ (- 0))%Z with 1%Z. change (2 ^ 0)%Z with 1%Z.
          rewrite Z.mul_1_r. change (inject_Z 1) with 1%Q. ring.
        - rewrite inject_Z_mult. field.
          intros H. apply (proj1 (inject_Z_injective _ 0%Z)) in H.
          pose proof (Z.pow_pos_nonneg 2 (- float_exponent x)). lia. }
      rewrite Hgrid. apply float64_le_grid; [done | by rewrite <- Hgrid].
    + assert (Hgrid : (inject_Z (2 ^ 53) == inject_Z (2 ^ 52) * pow2 (float_exponent x))%Q).
      { rewrite He. reflexivity. }
      rewrite Hgrid. apply float64_le_grid; [done | by rewrite <- Hgrid].
  - eapply Qle_trans; [by apply float64_nonpos|]. by rewrite <- (Zle_Qle 0).
Qed.

(** At [2 ^ 53] the floats are two apart and a sum that goes one above
    it is rounded back: the tie goes to the even significand. *)
Lemma float64_stuck x :
  (x <= inject_Z (2 ^ 53 + 1))%Q → (float64 x <= inject_Z (2 ^ 53))%Q.
Proof.
  intros Hx. destruct (Qlt_le_dec (inject_Z (2 ^ 53)) x) as [Hbig|Hsmall];
    [|by apply float64_le_int].
  assert (Hpos : (0 < x)%Q) by (by eapply Qlt_trans; [|exact Hbig]).
  assert (Hlo : (2 ^ 53 <= Qfloor x)%Z).
  { rewrite <- (Qfloor_Z (2 ^ 53)). by apply Qfloor_resp_le, Qlt_le_weak. }
  assert (Hhi : (Qfloor x <= 2 ^ 53 + 1)%Z).
  { rewrite <- (Qfloor_Z (2 ^ 53 + 1)). by apply Qfloor_resp_le. }
  assert (He : float_exponent x = 1%Z).
  { unfold float_exponent.
    assert (Qle_bool 1 x = true) as ->.
    { apply Qle_bool_iff. apply Qlt_le_weak. by eapply Qlt_trans; [|exact Hbig]. }
    assert (Qfloor x = 2 ^ 53 ∨ Qfloor x = 2 ^ 53 + 1)%Z as [->| ->] by lia; done. }
  assert (Hgrid : (inject_Z (2 ^ 53) == inject_Z (2 ^ 52) * pow2 (float_exponent x))%Q).
  { rewrite He. reflexivity. }
  rewrite Hgrid. apply float64_le_tie; [done | done |].
  rewrite He. eapply Qle_trans; [exact Hx|]. by vm_compute.
Qed.

(** One more rounded addition of a float between 0 and 1 to a sum of
    [k] of them. *)
Lemma float_sum_step s x k :
  (0 <= k)%Z →
  (0 <= s)%Q ∧ (s <= inject_Z (Z.min k (2 ^ 53)))%Q →
  (0 <= x)%Q ∧ (x <= 1)%Q →
  (0 <= float64 (s + x))%Q
  ∧ (float64 (s + x) <= inject_Z (Z.min (k + 1) (2 ^ 53)))%Q.
Proof.
  intros Hk [Hs0 Hs] [Hx0 Hx1]. split; [apply float64_nonneg; lra|].
  destruct (Z_le_gt_dec (k + 1) (2 ^ 53)) as [Hle|Hgt].
  - rewrite Z.min_l in Hs by lia. rewrite Z.min_l by lia.
    apply float64_le_int; [lia|]. rewrite inject_Z_plus.
    change (inject_Z 1) with 1%Q. lra.
  - rewrite Z.min_r in Hs by lia. rewrite Z.min_r by lia.
    apply float64_stuck. rewrite inject_Z_plus.
    change (inject_Z 1) with 1%Q. lra.
Qed.

Lemma float_sum_bounds l : ∀ s k,
  (0 <= k)%Z →
  (0 <= s)%Q ∧ (s <= inject_Z (Z.min k (2 ^ 53)))%Q →
  (∀ x, x ∈ l → (0 <= x)%Q ∧ (x <= 1)%Q) →
  (0 <= foldl (fun s x => float64 (s + x)) s l)%Q
  ∧ (foldl (fun s x => float64 (s + x)) s l
     <= inject_Z (Z.min (k + Z.of_nat (length l)) (2 ^ 53)))%Q.
Proof.
  induction l as [|x l IH]; intros s k Hk Hs Hl; cbn [foldl length].
  - by rewrite Z.add_0_r.
  - replace (k + Z.of_nat (S (length l)))%Z
      with (k + 1 + Z.of_nat (length l))%Z by lia.
    apply IH; [lia | | intros y Hy; apply Hl; by right].
    apply float_sum_step; [done | done | apply Hl; left].
Qed.

Lemma filter_ne_above i m : ∀ s,
  i < s → filter (fun j => j ≠ i) (seq s m) = seq s m.
Proof.
  induction m as [|m IH]; intros s Hs; [done|]. simpl seq.
  rewrite filter_cons, decide_True by lia. by rewrite IH by lia.
Qed.

Lemma length_filter_ne i m : ∀ s,
  s ≤ i < s + m → S (length (filter (fun j => j ≠ i) (seq s m))) = m.
Proof.
  induction m as [|m IH]; intros s Hi; [lia|]. simpl seq. rewrite filter_cons.
  destruct (decide (s = i)) as [->|Hne].
  - rewrite decide_False by (intros H; by apply H).
    by rewrite filter_ne_above, length_seq by lia.
  - rewrite decide_True by done. simpl. rewrite IH; lia.
Qed.

Lemma computed_score_bounds caps i :
  i < length caps →
  (0 <= computed_score caps i)%Q
  ∧ (computed_score caps i <= inject_Z (Z.of_nat (length caps - 1)))%Q.
Proof.
  intros Hi. unfold computed_score, float_sum.
  set (l := (fun j => float64 (similar (item caps i) (item caps j)))
              <$> filter (fun j => j ≠ i) (seq 0 (length caps))).
  assert (Hlen : length l = length caps - 1).
  { unfold l. rewrite length_fmap.
    pose proof (length_filter_ne i (length caps) 0). lia. }
  destruct (float_sum_bounds l 0 0) as [H0 H1]; [done | by vm_compute | |].
  { intros x (j & -> & _)%list_elem_of_fmap.
    destruct (ratio_range (list_ascii_of_string (item caps i))
                (list_ascii_of_string (item caps j))) as [Hr0 Hr1].
    split; [by apply float64_nonneg|].
    by apply (float64_le_int _ 1). }
  split; [done|]. eapply Qle_trans; [exact H1|].
  rewrite <- Zle_Qle, Hlen. lia.
Qed.

(** X10: on a non-empty list the selector returns a valid position, the
    caption at that position and one score per caption; with two or
    more captions every score lies between 0 and [n - 1]. *)
Theorem representative_caption_scores caps :
  caps ≠ [] →
  (∃ best, best < length caps
     ∧ (representative_caption caps).1.2 = Z.of_nat best
     ∧ caps !! best = Some (representative_caption caps).1.1)
  ∧ length (representative_caption caps).2 = length caps
  ∧ (2 ≤ length caps → ∀ s, s ∈ (representative_caption caps).2 →
       (0 <= s)%Q ∧ (s <= inject_Z (Z.of_nat (length caps - 1)))%Q).
Proof.
  intros Hne. unfold representative_caption.
  destruct (Nat.eqb_spec (length caps) 0) as [H0|Hn0]; [by destruct caps|].
  destruct (Nat.eqb_spec (length caps) 1) as [H1|Hn].
  - destruct caps as [|c [|? ?]]; simplify_eq/=.
    split_and!; [exists 0; split_and!; [lia | done | done] | done | lia].
  - set (scores := score_outer caps _ _).
    set (key := fun i => default 0%Q (scores !! i)).
    destruct (max_key_seq key (length caps - 1)) as (Hlt & _ & _).
    set (best := max_key key 0 (seq 1 (length caps - 1))) in *.
    assert (Hlen : length scores = length caps).
    { unfold scores. by rewrite score_outer_length, length_replicate. }
    simpl. split_and!; [| done |].
    + exists best. split_and!; [lia | done |].
      destruct (lookup_lt_is_Some_2 caps best) as [c Hc]; [lia|].
      unfold item. by rewrite Hc.
    + intros _ s (i & Hs)%list_elem_of_lookup_1.
      assert (Hi : i < length caps) by (rewrite <- Hlen; by eapply lookup_lt_Some).
      pose proof (score_outer_computed caps i Hi) as Hs'.
      fold scores in Hs'. rewrite Hs in Hs'. injection Hs' as ->.
      by apply computed_score_bounds.
Qed.

Lemma representative_caption_scores_witness :
  length (representative_caption ["x"; "x"; "y"]).2 = 3.
Proof.
  pose proof (representative_caption_scores ["x"; "x"; "y"]) as H.
  destruct H as (_ & Hlen & _); [discriminate | exact Hlen].
Defined.

(** ** Scenes and transcript together *)

Lemma div_fps_monotone (x y : nat) fps :
  (0 < fps)%Q → x ≤ y →
  (inject_Z (Z.of_nat x) / fps <= inject_Z (Z.of_nat y) / fps)%Q.
Proof.
  intros Hfps Hxy. unfold Qdiv. apply Qmult_le_compat_r.
  - rewrite <- Zle_Qle. lia.
  - apply Qlt_le_weak. by apply Qinv_lt_0_compat.
Qed.

(** X11: among the scenes the segmenter returns for a positive [fps], a
    transcript segment lies within two different scenes only when its
    start and its end both sit on the time where the first of them ends
    and the second begins: a segment with [start < end] is in the
    dialogue of at most one scene. *)
Theorem segment_in_two_scenes caps threshold max_gap fps scs k k' a b seg :
  categorize_scenes caps threshold max_gap fps = Ok scs →
  (0 < fps)%Q → k < k' →
  scs !! k = Some a → scs !! k' = Some b →
  segment_within a seg → segment_within b seg →
  (seg_start seg == seg_end seg)%Q
  ∧ (seg_start seg == end_time a)%Q
  ∧ (end_time a == start_time b)%Q.
Proof.
  intros Hret Hfps Hk Ha Hb Hwa Hwb.
  destruct (categorize_scenes_chain _ _ _ _ _ Hret) as (bounds & -> & Hch).
  rewrite list_lookup_fmap in Ha, Hb.
  destruct (bounds !! k) as [x|] eqn:Hx; [|done].
  destruct (bounds !! k') as [y|] eqn:Hy; [|done].
  simpl in Ha, Hb. injection Ha as <-. injection Hb as <-.
  pose proof (chained_ascending _ _ _ _ _ _ _ Hch Hk Hx Hy) as Hasc.
  pose proof (div_fps_monotone _ _ fps Hfps Hasc) as Hmono.
  destruct Hwa as ((_ & Hs1) & (_ & He1)).
  destruct Hwb as ((Hs2 & _) & (He2 & _)). simpl in *.
  assert (H1 : (seg_start seg == inject_Z (Z.of_nat x.2) / fps)%Q).
  { apply Qle_antisym; [done|]. by eapply Qle_trans. }
  assert (H2 : (seg_end seg == inject_Z (Z.of_nat x.2) / fps)%Q).
  { apply Qle_antisym; [done|]. by eapply Qle_trans. }
  split_and!; [by rewrite H1, H2 | done |].
  apply Qle_antisym; [done|]. rewrite <- H1. done.
Qed.

Lemma segment_in_two_scenes_witness :
  (seg_start (Segment 2 2 "hello") == seg_end (Segment 2 2 "hello"))%Q
  ∧ (seg_start (Segment 2 2 "hello")
     == end_time (Scene ["a cat on a mat"; "a cat on a mat"] 0 2))%Q.
Proof.
  pose proof (segment_in_two_scenes example_captions (6 # 10) 0 1
                [Scene ["a cat on a mat"; "a cat on a mat"] 0 2;
                 Scene ["a dog running"; "a dog runs fast"] 2 4]
                0 1
                (Scene ["a cat on a mat"; "a cat on a mat"] 0 2)
                (Scene ["a dog running"; "a dog runs fast"] 2 4)
                (Segment 2 2 "hello")) as H.
  destruct H as (H1 & H2 & _);
    [by vm_compute | by vm_compute | lia | reflexivity | reflexivity
    | by vm_compute | by vm_compute |].
  split; [exact H1 | exact H2].
Defined.

(** ** More on the emotion stage *)

Lemma emotion_loop_failure {Frame Image : Type} (env : collaborators Frame Image)
    c times : ∀ emotions e,
  emotion_loop env c times emotions = Err e →
  ∃ i t, times !! i = Some t ∧ frame_fails env c t e
         ∧ ∀ i' t', i' < i → times !! i' = Some t' →
             ∃ image, frame_ready env c t' image.
Proof.
  induction times as [|t times IH]; intros emotions e Hloop; simpl in Hloop; [done|].
  destruct (get_frame c t) as [frame|e'] eqn:Hf; simpl in Hloop.
  - destruct (resize_to_image env frame) as [image|e'] eqn:Hr; simpl in Hloop.
    + destruct (IH _ _ Hloop) as (i & t0 & Hi & Hfail & Hearlier).
      exists (S i), t0. split_and!; [done | done |].
      intros [|i'] t' Hlt Ht'; simpl in Ht'.
      * simplify_eq. exists image, frame. by split.
      * apply (Hearlier i'); [lia | done].
    + injection Hloop as <-. exists 0, t. split_and!; [done | right; eauto |].
      intros i' t' Hlt. lia.
  - injection Hloop as <-. exists 0, t. split_and!; [done | by left |].
    intros i' t' Hlt. lia.
Qed.

(** X12: what the emotion stage raises is the failure of the model
    loader, of the clip reader, of the sampling grid, or of the fetch or
    resize of the first requested sample whose frame is not ready; it is
    never a failure of the classifier. *)
Theorem analyze_emotions_failure {Frame Image : Type}
    (env : collaborators Frame Image) (video_path : string) (sample_rate : Q)
    (e : exn) :
  analyze_emotions env video_path sample_rate = Err e →
  get_emotion_model env = Err e
  ∨ VideoFileClip env video_path = Err e
  ∨ ∃ c, VideoFileClip env video_path = Ok c
      ∧ (np_arange (duration c) sample_rate = Err e
         ∨ ∃ times i t,
             np_arange (duration c) sample_rate = Ok times
             ∧ times !! i = Some t
             ∧ frame_fails env c t e
             ∧ ∀ i' t', i' < i → times !! i' = Some t' →
                 ∃ image, frame_ready env c t' image).
Proof.
  unfold analyze_emotions. intros H.
  destruct (get_emotion_model env) as [[]|e1]; simpl in H; [|left; congruence].
  destruct (VideoFileClip env video_path) as [c|e2]; simpl in H;
    [|right; left; congruence].
  right. right. exists c. split; [done|].
  destruct (np_arange (duration c) sample_rate) as [times|e3]; simpl in H;
    [|left; congruence].
  right. destruct (emotion_loop_failure env c times [] e H) as (i & t & ? & ? & ?).
  by exists times, i, t.
Qed.

Lemma analyze_emotions_failure_witness :
  ∃ c times i t,
    VideoFileClip unreadable_frame_env "video.mp4" = Ok c
    ∧ np_arange (duration c) 1 = Ok times
    ∧ times !! i = Some t
    ∧ frame_fails unreadable_frame_env c t (Exception "cannot read frame").
Proof.
  destruct (analyze_emotions_failure unreadable_frame_env "video.mp4" 1
              (Exception "cannot read frame")) as [H|[H|H]];
    [by vm_compute | discriminate H | discriminate H |].
  destruct H as (c & Hc & [H|(times & i & t & Ht & Hi & Hfail & _)]).
  - simpl in Hc. injection Hc as <-. discriminate H.
  - by exists c, times, i, t.
Defined.

(** ** More on the emotion-text merger *)

Lemma lstrip_head s :
  lstrip s = EmptyString ∨ ∃ c r, lstrip s = String c r ∧ isspace c = false.
Proof.
  induction s as [|c s IH]; [by left|]. cbn [lstrip].
  destruct (isspace c) eqn:E; [done|]. right. by exists c, s.
Qed.

Lemma rstrip_head c r :
  isspace c = false → ∃ r', rstrip (String c r) = String c r'.
Proof.
  intros Hc. cbn [rstrip]. destruct (rstrip r) as [|c' r']; [|by eexists].
  rewrite Hc. by eexists.
Qed.

Lemma rstrip_cons c s :
  rstrip (String c s)
  = match rstrip s with
    | EmptyString => if isspace c then EmptyString else String c EmptyString
    | r => String c r
    end.
Proof. reflexivity. Qed.

Lemma rstrip_idem s : rstrip (rstrip s) = rstrip s.
Proof.
  induction s as [|c s IH]; [done|]. rewrite rstrip_cons.
  destruct (rstrip s) as [|c' r'] eqn:E.
  - destruct (isspace c) eqn:Hc; [done|]. rewrite rstrip_cons. simpl. by rewrite Hc.
  - rewrite rstrip_cons, IH. done.
Qed.

(** [strip] leaves a stripped string alone. *)
Lemma strip_idem s : strip (strip s) = strip s.
Proof.
  unfold strip. destruct (lstrip_head s) as [->|(c & r & -> & Hc)]; [done|].
  destruct (rstrip_head c r Hc) as [r' Hr]. rewrite Hr.
  cbn [lstrip]. rewrite Hc. by rewrite <- Hr, rstrip_idem.
Qed.

Lemma merge_texts transcript_text emotions :
  mu_text <$> merge_text_and_emotions transcript_text emotions
  = sentence_units transcript_text.
Proof.
  unfold merge_text_and_emotions, sentence_units.
  rewrite <- stripped_nonempty_filter, merge_loop_imap. simpl app.
  rewrite fmap_imap. apply list_eq. intros i. rewrite list_lookup_imap.
  destruct (stripped_nonempty _ !! i) as [line|]; [|done]. simpl.
  unfold unit_at. by destruct (emotions !! i).
Qed.

(** X13: the text of every merged unit is not empty and has no
    whitespace left at either end. *)
Theorem merge_text_and_emotions_stripped transcript_text emotions u :
  u ∈ merge_text_and_emotions transcript_text emotions →
  mu_text u ≠ EmptyString ∧ strip (mu_text u) = mu_text u.
Proof.
  intros Hu.
  assert (Hin : mu_text u ∈ sentence_units transcript_text).
  { rewrite <- (merge_texts transcript_text emotions). by apply list_elem_of_fmap_2. }
  unfold sentence_units in Hin.
  apply list_elem_of_filter in Hin as [Hne Hin].
  apply list_elem_of_fmap in Hin as (s & Hs & _).
  split; [exact Hne | rewrite Hs; apply strip_idem].
Qed.

Lemma merge_text_and_emotions_stripped_witness :
  strip "there" = "there".
Proof.
  apply (merge_text_and_emotions_stripped "Hello .  there  " []
           (MergedUnit "there" "neutral" ∅ None)).
  vm_compute. right. left.
Defined.

(** X14: only as many emotion samples as there are sentence units are
    read: the samples after them do not change the result. *)
Theorem merge_text_and_emotions_surplus transcript_text emotions :
  merge_text_and_emotions transcript_text emotions
  = merge_text_and_emotions transcript_text
      (take (length (sentence_units transcript_text)) emotions).
Proof.
  unfold merge_text_and_emotions, sentence_units.
  rewrite <- stripped_nonempty_filter, !merge_loop_imap. simpl app.
  apply list_eq. intros i. rewrite !list_lookup_imap.
  destruct (stripped_nonempty _ !! i) as [line|] eqn:E; [|done]. simpl.
  apply lookup_lt_Some in E. unfold unit_at.
  by rewrite lookup_take_lt.
Qed.

(** ** More on the job pipeline *)

(** For an [fps] other than 0 the segmenter returns. *)
Lemma categorize_scenes_returns caps threshold max_gap fps :
  ¬ (fps == 0)%Q → ∃ scs, categorize_scenes caps threshold max_gap fps = Ok scs.
Proof.
  intros Hfps. destruct caps as [|c0 caps']; [by exists []|].
  unfold categorize_scenes. set (caps := c0 :: caps').
  destruct (scene_loop_inv caps threshold max_gap fps (length caps - 1) 1 []
              (OpenScene [c0] 0 1 c0 0)) as (scs & cur & Hloop & Hinv).
  - done.
  - simpl. lia.
  - exists []. simpl. split_and!; [done | done | lia | done | done].
  - rewrite Hloop. simpl.
    rewrite (close_scene_ok caps fps (length caps) scs cur) by done. simpl. eauto.
Qed.

Section PipelineOutcome.
Context {Frame Image : Type}.
Variable env : collaborators Frame Image.
Variable store : Z → string → result unit.

(** The [finally] block adds its [os.remove] to the trace of the stages
    and leaves their outcome alone. *)
Lemma process_video_task_after_stages video_path w :
  trace (process_video_task env store video_path w).2
  = trace (run_stages env store video_path w).2 ++ [Remove video_path]
  ∧ (process_video_task env store video_path w).1
    = (run_stages env store video_path w).1.
Proof.
  unfold process_video_task, try_finally, except_OSError_pass, os_remove.
  destruct (run_stages env store video_path w) as [r w1]. simpl.
  by destruct (bool_decide (video_path ∈ files w1) && _).
Qed.

(** Case on the outcome of the next store or collaborator of the [try]
    block. *)
Ltac stage_case :=
  lazymatch goal with
  | |- context [match store ?p ?s with _ => _ end] =>
      destruct (store p s) as [[]|?]
  | |- context [match transcribe_with_whisper env ?x with _ => _ end] =>
      destruct (transcribe_with_whisper env x)
  | |- context [match extract_frames env ?x ?y with _ => _ end] =>
      destruct (extract_frames env x y)
  | |- context [match caption_frames env ?x with _ => _ end] =>
      destruct (caption_frames env x)
  | |- context [match categorize_scenes ?x ?y ?z ?u with _ => _ end] =>
      destruct (categorize_scenes x y z u)
  | |- context [match analyze_emotions env ?x ?y with _ => _ end] =>
      destruct (analyze_emotions env x y)
  end; simpl.

(** A run that returns has computed what the stages compute. *)
Lemma run_stages_returns video_path w r :
  (run_stages env store video_path w).1 = Ok r →
  stages_outcome env video_path = Ok r.
Proof.
  unfold run_stages, stages_outcome, task_bind, update_state, call, task_ret.
  repeat stage_case; done.
Qed.

(** With a store that works, the outcome of the stages and the progress
    they leave behind. *)
Lemma run_stages_working_store video_path w :
  (∀ percent step, store percent step = Ok tt) →
  (run_stages env store video_path w).1 = stages_outcome env video_path
  ∧ ∃ n, trace (run_stages env store video_path w).2
         = trace w ++ take n schedule_events
      ∧ match n with
        | 2 => ∃ e, transcribe_with_whisper env video_path = Err e
                    ∧ stages_outcome env video_path = Err e
        | 3 => ∃ e, extract_frames env video_path 1 = Err e
                    ∧ stages_outcome env video_path = Err e
        | 4 => ∃ frames e, extract_frames env video_path 1 = Ok frames
                           ∧ caption_frames env frames = Err e
                           ∧ stages_outcome env video_path = Err e
        | 7 => ∃ e, analyze_emotions env video_path 1 = Err e
                    ∧ stages_outcome env video_path = Err e
        | 8 => ∃ r, stages_outcome env video_path = Ok r
        | _ => False
        end.
Proof.
  intros Hstore.
  unfold run_stages, stages_outcome, task_bind, update_state, call, task_ret.
  rewrite !Hstore. simpl.
  destruct (transcribe_with_whisper env video_path) as [t|e] eqn:Ht; simpl;
    [|split; [done|]; exists 2; rewrite <- ?app_assoc; split; [done | by exists e]].
  destruct (extract_frames env video_path 1) as [frames|e] eqn:Hf; simpl;
    [|split; [done|]; exists 3; rewrite <- ?app_assoc; split; [done | by exists e]].
  destruct (caption_frames env frames) as [caps|e] eqn:Hc; simpl;
    [|split; [done|]; exists 4; rewrite <- ?app_assoc;
      split; [done | by exists frames, e]].
  destruct (categorize_scenes_returns caps (6 # 10) 1 1) as [scs Hs]; [done|].
  rewrite Hs. simpl.
  destruct (analyze_emotions env video_path 1) as [emotions|e] eqn:He; simpl;
    [|split; [done|]; exists 7; rewrite <- ?app_assoc; split; [done | by exists e]].
  split; [done|]. exists 8. rewrite <- ?app_assoc. split; [done | eauto].
Qed.
End PipelineOutcome.

(** C9: on every run of the task the progress records stored are the
    first records of the schedule 5, 20, 40, 60, 70, 80, 90, 100, in that
    order: all eight when the run returns, fewer when it raises; the
    percent values are therefore non-decreasing.  When the progress
    store works, the run returns or raises what its stages do: it
    returns and has stored the whole schedule when every stage succeeds,
    and has stored at least 5 and 20 and not 100 when a stage fails. *)
Theorem process_video_task_progress {Frame Image : Type}
    (env : collaborators Frame Image) (store : Z → string → result unit)
    (video_path : string) (w : world) :
  ∃ evs n,
    trace (process_video_task env store video_path w).2 = trace w ++ evs
    ∧ percents evs = take n schedule
    ∧ (∀ v, (process_video_task env store video_path w).1 = Ok v →
         percents evs = schedule)
    ∧ (∀ i j p q, i ≤ j → percents evs !! i = Some p → percents evs !! j = Some q →
         (p <= q)%Z)
    ∧ ((∀ percent step, store percent step = Ok tt) →
       (process_video_task env store video_path w).1
       = stages_outcome env video_path
       ∧ (∀ r, stages_outcome env video_path = Ok r → percents evs = schedule)
       ∧ (∀ e, stages_outcome env video_path = Err e → 2 ≤ n < 8)).
Proof.
  destruct (process_video_task_trace env store video_path w)
    as (n & Htr & _ & Hout & Hok).
  exists (take n schedule_events ++ [Remove video_path]), n.
  assert (Hp : percents (take n schedule_events ++ [Remove video_path])
               = take n schedule).
  { by rewrite percents_app, percents_take_schedule, app_nil_r. }
  split_and!; [done | done | | |].
  - intros v Hv. by rewrite Hp, (Hok v Hv).
  - intros i j p q. rewrite Hp. apply take_schedule_sorted.
  - intros Hstore.
    destruct (run_stages_working_store env store video_path w Hstore)
      as (Hrun & n' & Htr' & Hn').
    destruct (process_video_task_after_stages env store video_path w) as [Hafter _].
    assert (Hsame : take n schedule = take n' schedule).
    { rewrite Htr, Htr', <- app_assoc in Hafter.
      apply app_inv_head in Hafter.
      apply (f_equal percents) in Hafter.
      by rewrite !percents_app, !percents_take_schedule in Hafter; simplify_list_eq. }
    split_and!.
    + by rewrite Hout.
    + intros r Hr. rewrite Hp, (Hok r); [done|]. by rewrite Hout, Hrun.
    + intros e He. apply (f_equal length) in Hsame.
      rewrite !length_take in Hsame. change (length schedule) with 8 in Hsame.
      destruct n' as [|[|[|[|[|[|[|[|[|n']]]]]]]]]; simpl in Hn'; try done;
        try lia.
      destruct Hn' as [r Hr]. congruence.
Qed.

(** The progress theorem on a run whose store and stages all succeed:
    the run returns and has stored the whole schedule. *)
Lemma process_video_task_progress_witness :
  ∃ evs r,
    trace (process_video_task failing_classifier_env (fun _ _ => Ok tt)
             "video.mp4" uploaded_world).2 = evs
    ∧ (process_video_task failing_classifier_env (fun _ _ => Ok tt)
         "video.mp4" uploaded_world).1 = Ok r
    ∧ percents evs = schedule.
Proof.
  destruct (process_video_task_progress failing_classifier_env (fun _ _ => Ok tt)
              "video.mp4" uploaded_world) as (evs & n & Htr & _ & _ & _ & Hlive).
  destruct Hlive as (Hout & Hall & _); [done|].
  eexists evs, _. split; [exact Htr|]. split; [rewrite Hout; reflexivity|].
  eapply Hall. reflexivity.
Defined.

Lemma combine_length scs segs :
  length (combine_scenes_with_transcript scs segs) = length scs.
Proof. induction scs as [|sc scs IH]; simpl; [done | by rewrite IH]. Qed.

(** X15: the result of a run that returns is consistent: its scenes are
    what the segmenter returns for its frame captions, they hold those
    captions each once and in order, there is one combined scene per
    scene, built from the result's own scenes and transcript segments,
    and the merged texts are the sentence units of its transcript. *)
Theorem process_video_task_result {Frame Image : Type}
    (env : collaborators Frame Image) (store : Z → string → result unit)
    (video_path : string) (w : world) (r : analysis) :
  (process_video_task env store video_path w).1 = Ok r →
  categorize_scenes (frame_captions r) (6 # 10) 1 1 = Ok (scenes r)
  ∧ concat (captions <$> scenes r) = frame_captions r
  ∧ combined_scenes r
    = combine_scenes_with_transcript (scenes r) (transcript_segments r)
  ∧ length (combined_scenes r) = length (scenes r)
  ∧ mu_text <$> merged_text_emotions r = sentence_units (transcript_text r).
Proof.
  destruct (process_video_task_after_stages env store video_path w) as [_ ->].
  intros Hr%run_stages_returns. unfold stages_outcome in Hr.
  destruct (transcribe_with_whisper env video_path) as [t|]; [|done]. simpl in Hr.
  destruct (extract_frames env video_path 1) as [frames|]; [|done]. simpl in Hr.
  destruct (caption_frames env frames) as [caps|]; [|done]. simpl in Hr.
  destruct (categorize_scenes caps (6 # 10) 1 1) as [scs|] eqn:Hs; [|done].
  simpl in Hr.
  destruct (analyze_emotions env video_path 1) as [emotions|]; [|done].
  simpl in Hr. injection Hr as <-. simpl.
  split_and!; [done | | done | apply combine_length | apply merge_texts].
  destruct (categorize_scenes_chain _ _ _ _ _ Hs) as (bounds & -> & Hch).
  rewrite (chained_concat caps 1 bounds 0 (length caps) Hch).
  by rewrite Nat.sub_0_r, drop_0, firstn_all.
Qed.

Lemma process_video_task_result_witness :
  ∃ r, (process_video_task failing_classifier_env (fun _ _ => Ok tt)
          "video.mp4" uploaded_world).1 = Ok r
       ∧ length (combined_scenes r) = length (scenes r).
Proof.
  eexists. split; [reflexivity|].
  eapply (process_video_task_result failing_classifier_env (fun _ _ => Ok tt)
            "video.mp4" uploaded_world). reflexivity.
Defined.

(** X16: when the progress store works, a run raises only in one of the
    four stages that call a collaborator, and the last percent stored
    tells which: 20 for the transcription, 40 for the frame extraction,
    60 for the captioning, 90 for the emotion analysis.  The stages at 70
    and 80 and the final record never fail. *)
Theorem process_video_task_failure_stage {Frame Image : Type}
    (env : collaborators Frame Image) (store : Z → string → result unit)
    (video_path : string) (w : world) (e : exn) :
  (∀ percent step, store percent step = Ok tt) →
  (process_video_task env store video_path w).1 = Err e →
  ∃ evs,
    trace (process_video_task env store video_path w).2
    = trace w ++ evs ++ [Remove video_path]
    ∧ ((transcribe_with_whisper env video_path = Err e
        ∧ percents evs = [5; 20]%Z)
       ∨ (extract_frames env video_path 1 = Err e
          ∧ percents evs = [5; 20; 40]%Z)
       ∨ ((∃ frames, extract_frames env video_path 1 = Ok frames
                     ∧ caption_frames env frames = Err e)
          ∧ percents evs = [5; 20; 40; 60]%Z)
       ∨ (analyze_emotions env video_path 1 = Err e
          ∧ percents evs = [5; 20; 40; 60; 70; 80; 90]%Z)).
Proof.
  intros Hstore.
  destruct (process_video_task_after_stages env store video_path w) as [-> ->].
  destruct (run_stages_working_store env store video_path w Hstore)
    as (-> & n & -> & Hn).
  intros He. exists (take n schedule_events).
  split; [by rewrite app_assoc|]. rewrite percents_take_schedule.
  destruct n as [|[|[|[|[|[|[|[|[|n]]]]]]]]]; simpl in Hn; try done.
  - destruct Hn as (e' & Ht & Ho). left. split; [congruence | done].
  - destruct Hn as (e' & Hf & Ho). right. left. split; [congruence | done].
  - destruct Hn as (frames & e' & Hf & Hc & Ho). right. right. left.
    split; [exists frames; split; congruence | done].
  - destruct Hn as (e' & Hem & Ho). right. right. right.
    split; [congruence | done].
  - destruct Hn as [r Hr]. congruence.
Qed.

Lemma process_video_task_failure_stage_witness :
  ∃ evs,
    trace (process_video_task unreadable_frame_env (fun _ _ => Ok tt)
             "video.mp4" uploaded_world).2
    = evs ++ [Remove "video.mp4"]
    ∧ percents evs = [5; 20; 40; 60; 70; 80; 90]%Z.
Proof.
  destruct (process_video_task_failure_stage unreadable_frame_env (fun _ _ => Ok tt)
              "video.mp4" uploaded_world (Exception "cannot read frame"))
    as (evs & Htr & [[H _]|[[H _]|[[(? & _ & H) _]|[_ Hp]]]]);
    [done | by vm_compute | discriminate H | discriminate H | discriminate H |].
  exists evs. split; [exact Htr | exact Hp].
Defined.

(** ** The wrappers of the external models *)

Section WrapperProperties.
Context {Frame Whisper Processor Blip : Type}.
Variable lib : Wrappers.backends Frame Whisper Processor Blip.

Lemma transcript_loop_acc segs seg_list all_text_parts :
  Wrappers.transcript_loop segs seg_list all_text_parts
  = (seg_list ++ (segment_of <$> segs),
     all_text_parts ++ (Wrappers.rs_text <$> segs)).
Proof.
  revert seg_list all_text_parts.
  induction segs as [|s segs IH]; intros seg_list parts; simpl.
  - by rewrite !app_nil_r.
  - rewrite IH, <- !app_assoc. done.
Qed.

Lemma read_loop_inv m (l : list Frame) : 1 ≤ m → ∀ consumed acc : list Frame,
  length consumed ≤ length acc * m < length consumed + m →
  (∀ k, k < length acc → acc !! k = consumed !! (k * m)) →
  let res := Wrappers.read_loop m l (length consumed) acc in
  length (consumed ++ l) ≤ length res * m < length (consumed ++ l) + m
  ∧ ∀ k, k < length res → res !! k = (consumed ++ l) !! (k * m).
Proof.
  intros Hm. induction l as [|frame l IH]; intros consumed acc Hlen Hacc; simpl.
  - by rewrite app_nil_r.
  - assert (Hid : length consumed + 1 = length (consumed ++ [frame]))
      by (rewrite length_app; simpl; lia).
    rewrite Hid, (cons_middle frame consumed l), app_assoc.
    destruct (Nat.eqb_spec (length consumed mod m) 0) as [Hz|Hnz].
    + assert (Heq : length acc * m = length consumed).
      { pose proof (Nat.div_mod_eq (length consumed) m) as Hq.
        rewrite Hz, Nat.add_0_r in Hq.
        generalize dependent (length consumed `div` m). intros q Hq.
        assert (length acc = q) as -> by nia. lia. }
      apply IH.
      * rewrite !length_app. simpl. nia.
      * intros k Hk. rewrite length_app in Hk. simpl in Hk.
        destruct (decide (k < length acc)) as [Hlt|Hge].
        -- rewrite lookup_app_l by done. rewrite lookup_app_l by nia.
           by apply Hacc.
        -- assert (k = length acc) as -> by lia.
           rewrite Heq. rewrite !lookup_app_r by lia.
           by rewrite !Nat.sub_diag.
    + assert (Hne : length acc * m ≠ length consumed).
      { intros Heq. apply Hnz. rewrite <- Heq. apply Nat.Div0.mod_mul. }
      apply IH.
      * rewrite !length_app. simpl. lia.
      * intros k Hk. rewrite lookup_app_l by nia. by apply Hacc.
Qed.

Lemma caption_loop_acc processor model frames : ∀ acc caps,
  Wrappers.caption_loop lib processor model frames acc = Ok caps →
  ∃ cs, caps = acc ++ cs
        ∧ Forall2 (fun f c => Wrappers.caption lib processor model f = Ok c)
            frames cs.
Proof.
  induction frames as [|f frames IH]; intros acc caps Hc; simpl in Hc.
  - injection Hc as <-. exists []. by rewrite app_nil_r.
  - destruct (Wrappers.caption lib processor model f) as [c|] eqn:Hf; [|done].
    simpl in Hc. destruct (IH _ _ Hc) as (cs & -> & Hall).
    exists (c :: cs). rewrite <- app_assoc. split; [done|]. by constructor.
Qed.

(** X17: a transcript that is returned has one segment per segment of
    the model's answer, with the same times and text and in the same
    order, and its text is the texts of its segments put together with
    nothing between them. *)
Theorem transcribe_with_whisper_text video_path model_size g t :
  (Wrappers.transcribe_with_whisper lib video_path model_size g).1 = Ok t →
  text t = String.concat "" (seg_text <$> segments t)
  ∧ ∃ model segs,
      (Wrappers.get_whisper_model lib model_size g).1 = Ok model
      ∧ Wrappers.transcribe lib model video_path = Ok (segs, language t)
      ∧ segments t = segment_of <$> segs.
Proof.
  unfold Wrappers.transcribe_with_whisper.
  destruct (Wrappers.get_whisper_model lib model_size g) as [[model|] g']; [|done].
  destruct (Wrappers.transcribe lib model video_path) as [[segs lang]|] eqn:Ht;
    [|done].
  rewrite transcript_loop_acc. simpl. intros [= <-]. simpl.
  split; [|by exists model, segs].
  rewrite <- list_fmap_compose. done.
Qed.

(** X18: once a whisper model has been returned, every later call
    returns that same model, whatever size it is asked for, and leaves
    the cached models as they are. *)
Theorem get_whisper_model_cached model_size g model :
  (Wrappers.get_whisper_model lib model_size g).1 = Ok model →
  ∀ model_size',
    Wrappers.get_whisper_model lib model_size'
      (Wrappers.get_whisper_model lib model_size g).2
    = (Ok model, (Wrappers.get_whisper_model lib model_size g).2).
Proof.
  unfold Wrappers.get_whisper_model.
  destruct (Wrappers.whisper_model g) as [m|] eqn:Hg; simpl.
  - intros [= ->] size'. by rewrite Hg.
  - destruct (Wrappers.WhisperModel lib model_size) as [m|]; [|done].
    simpl. by intros [= ->] size'.
Qed.

(** X19: once the captioning models have been returned, the next call
    returns the same pair without loading anything, and no call touches
    the cached whisper model. *)
Theorem get_blip_models_cached g models :
  (Wrappers.get_blip_models lib g).1 = Ok models →
  Wrappers.get_blip_models lib (Wrappers.get_blip_models lib g).2
  = (Ok models, (Wrappers.get_blip_models lib g).2)
  ∧ Wrappers.whisper_model (Wrappers.get_blip_models lib g).2
    = Wrappers.whisper_model g.
Proof.
  unfold Wrappers.get_blip_models.
  destruct (Wrappers.blip_processor g) as [p|] eqn:Hp;
    destruct (Wrappers.blip_model g) as [b|] eqn:Hb; simpl;
    try (destruct (Wrappers.load_processor lib) as [p'|]; [|done];
         destruct (Wrappers.load_blip lib) as [b'|]; [|done]; simpl;
         by intros [= <-]).
  intros [= <-]. by rewrite Hp, Hb.
Qed.

(** X20: the frames that are returned are every [m]-th frame of the
    video, starting with the first, where [m >= 1] is the sampling
    interval: frame [k] of the result is frame [k * m] of the video, and
    the result stops with the last multiple of [m] inside the video. *)
Theorem extract_frames_sampling video_path fps frames :
  Wrappers.extract_frames lib video_path fps = Ok frames →
  let cap := Wrappers.VideoCapture lib video_path in
  let m := Wrappers.frame_interval (Wrappers.CAP_PROP_FPS cap) fps in
  1 ≤ m
  ∧ (∀ k, frames !! k = Wrappers.cap_frames cap !! (k * m))
  ∧ length (Wrappers.cap_frames cap) ≤ length frames * m
    < length (Wrappers.cap_frames cap) + m.
Proof.
  intros Hret cap m. unfold Wrappers.extract_frames in Hret. fold cap in Hret.
  destruct (negb (Wrappers.isOpened cap)); [done|].
  destruct (Qeq_bool fps 0); [done|]. injection Hret as <-. fold m.
  assert (Hm : 1 ≤ m) by (unfold m, Wrappers.frame_interval; lia).
  pose proof (read_loop_inv m (Wrappers.cap_frames cap) Hm [] []) as Hinv.
  simpl in Hinv. destruct Hinv as [Hlen Hk]; [lia | intros k Hk; lia |].
  split; [done|]. split; [|done].
  intros k.
  destruct (decide (k < length (Wrappers.read_loop m (Wrappers.cap_frames cap) 0 [])))
    as [Hlt|Hge].
  - by apply Hk.
  - rewrite !lookup_ge_None_2; [done | nia | lia].
Qed.

(** X21: the captions that are returned are one per frame and in the
    order of the frames, each the caption the loaded models give to its
    frame; an empty list of frames is answered without loading the
    models. *)
Theorem caption_frames_each frames g caps :
  (Wrappers.caption_frames lib frames g).1 = Ok caps →
  length caps = length frames
  ∧ (frames = [] → (Wrappers.caption_frames lib frames g).2 = g)
  ∧ (frames ≠ [] →
     ∃ processor model,
       (Wrappers.get_blip_models lib g).1 = Ok (processor, model)
       ∧ Forall2 (fun f c => Wrappers.caption lib processor model f = Ok c)
           frames caps).
Proof.
  destruct frames as [|f frames]; [by intros [= <-]|].
  unfold Wrappers.caption_frames.
  destruct (Wrappers.get_blip_models lib g) as [[[p b]|] g']; [|done].
  intros Hc. change (Wrappers.caption_loop lib p b (f :: frames) [] = Ok caps) in Hc.
  apply caption_loop_acc in Hc as (cs & -> & Hall). simpl app.
  split_and!; [symmetry; by eapply Forall2_length | done |].
  intros _. by exists p, b.
Qed.

(** X22: [analyze_video] raises only what one of its four calls of a
    collaborator raises: the transcription, the frame extraction, the
    captioning or the emotion analysis.  The scene grouping never fails
    in it: a frame rate of 0 already fails the frame extraction. *)
Theorem analyze_video_failure {Image : Type} (env : collaborators Frame Image)
    video_path whisper_model_size frame_fps scene_threshold scene_max_gap g e :
  (Wrappers.analyze_video lib env video_path whisper_model_size frame_fps
     scene_threshold scene_max_gap g).1 = Err e →
  let path := Wrappers.str_Path lib video_path in
  (Wrappers.transcribe_with_whisper lib path whisper_model_size g).1 = Err e
  ∨ Wrappers.extract_frames lib path frame_fps = Err e
  ∨ (∃ frames g1, Wrappers.extract_frames lib path frame_fps = Ok frames
                  ∧ (Wrappers.caption_frames lib frames g1).1 = Err e)
  ∨ analyze_emotions env path 1 = Err e.
Proof.
  intros He path. unfold Wrappers.analyze_video in He. fold path in He.
  destruct (Wrappers.transcribe_with_whisper lib path whisper_model_size g)
    as [[t|e1] g1]; [|left; simpl in *; congruence].
  destruct (Wrappers.extract_frames lib path frame_fps) as [frames|e2] eqn:Hf;
    [|right; left; simpl in *; congruence].
  destruct (Wrappers.caption_frames lib frames g1) as [[caps|e3] g2] eqn:Hc;
    [|right; right; left; exists frames, g1; rewrite Hc;
      split; [done | simpl in *; congruence]].
  assert (Hfps : ¬ (frame_fps == 0)%Q).
  { intros H0%Qeq_bool_iff. unfold Wrappers.extract_frames in Hf.
    rewrite H0 in Hf. by destruct (negb _). }
  destruct (categorize_scenes_returns caps scene_threshold scene_max_gap frame_fps
              Hfps) as [scs Hs].
  rewrite Hs in He.
  destruct (analyze_emotions env path 1) as [emotions|e4]; [done|].
  right; right; right. simpl in *. congruence.
Qed.

(** X23: the task runs the stages of [analyze_video] with its default
    arguments: when the progress store works, the path is already in
    the form [analyze_video] gives it, and the task's collaborators are
    the wrappers started from the cached models [g], the task returns or
    raises what [analyze_video] does. *)
Theorem process_video_task_as_analyze_video {Image : Type}
    (env : collaborators Frame Image) (store : Z → string → result unit)
    (video_path : string) (w : world) g :
  (∀ percent step, store percent step = Ok tt) →
  Wrappers.str_Path lib video_path = video_path →
  transcribe_with_whisper env video_path
  = (Wrappers.transcribe_with_whisper lib video_path "small" g).1 →
  extract_frames env video_path 1 = Wrappers.extract_frames lib video_path 1 →
  (∀ frames,
     caption_frames env frames
     = (Wrappers.caption_frames lib frames
          (Wrappers.transcribe_with_whisper lib video_path "small" g).2).1) →
  (process_video_task env store video_path w).1
  = (Wrappers.analyze_video lib env video_path "small" 1 (6 # 10) 1 g).1.
Proof.
  intros Hstore Hpath Ht Hf Hc.
  destruct (process_video_task_after_stages env store video_path w) as [_ ->].
  destruct (run_stages_working_store env store video_path w Hstore) as [-> _].
  unfold stages_outcome, Wrappers.analyze_video. rewrite Hpath, Ht, Hf.
  destruct (Wrappers.transcribe_with_whisper lib video_path "small" g)
    as [[t|e1] g1]; [|done]. simpl.
  destruct (Wrappers.extract_frames lib video_path 1) as [frames|e2]; [|done].
  simpl. simpl in Hc. rewrite Hc.
  destruct (Wrappers.caption_frames lib frames g1) as [[caps|e3] g2]; [|done].
  simpl.
  destruct (categorize_scenes caps (6 # 10) 1 1) as [scs|e4]; [|done]. simpl.
  by destruct (analyze_emotions env video_path 1) as [emotions|e5].
Qed.

End WrapperProperties.

Lemma transcribe_with_whisper_text_witness :
  ∃ t, (Wrappers.transcribe_with_whisper example_backends "video.mp4" "small"
          no_models).1 = Ok t
       ∧ text t = "Hello. Bye."
       ∧ text t = String.concat "" (seg_text <$> segments t).
Proof.
  eexists. split; [reflexivity|]. split; [reflexivity|].
  apply (transcribe_with_whisper_text example_backends "video.mp4" "small"
           no_models).
  reflexivity.
Defined.

Lemma get_whisper_model_cached_witness :
  (Wrappers.get_whisper_model example_backends "small" no_models).1 = Ok "small"
  ∧ (Wrappers.get_whisper_model example_backends "large"
       (Wrappers.get_whisper_model example_backends "small" no_models).2).1
    = Ok "small".
Proof.
  split; [reflexivity|].
  rewrite (get_whisper_model_cached example_backends "small" no_models "small");
    reflexivity.
Defined.

Lemma get_blip_models_cached_witness :
  (Wrappers.get_blip_models example_backends no_models).1 = Ok (tt, tt)
  ∧ Wrappers.whisper_model (Wrappers.get_blip_models example_backends no_models).2
    = None.
Proof.
  split; [reflexivity|].
  apply (get_blip_models_cached example_backends no_models (tt, tt)).
  reflexivity.
Defined.

Lemma extract_frames_sampling_witness :
  Wrappers.extract_frames example_backends "video.mp4" 1 = Ok [0; 2; 4]
  ∧ ∀ k, [0; 2; 4] !! k = [0; 1; 2; 3; 4] !! (k * 2).
Proof.
  split; [reflexivity|].
  apply (extract_frames_sampling example_backends "video.mp4" 1 [0; 2; 4]).
  reflexivity.
Defined.

Lemma caption_frames_each_witness :
  (Wrappers.caption_frames example_backends [0; 2; 3] no_models).1
  = Ok ["a dog"; "a dog"; "a cat"]
  ∧ length ["a dog"; "a dog"; "a cat"] = length [0; 2; 3].
Proof.
  split; [reflexivity|].
  apply (caption_frames_each example_backends [0; 2; 3] no_models). reflexivity.
Defined.

Lemma analyze_video_failure_witness :
  (Wrappers.analyze_video example_backends wrapped_env "video.mp4" "small" 0
     (6 # 10) 1 no_models).1 = Err ZeroDivisionError
  ∧ ((Wrappers.transcribe_with_whisper example_backends "video.mp4" "small"
        no_models).1 = Err ZeroDivisionError
     ∨ Wrappers.extract_frames example_backends "video.mp4" 0
       = Err ZeroDivisionError
     ∨ (∃ frames g1,
          Wrappers.extract_frames example_backends "video.mp4" 0 = Ok frames
          ∧ (Wrappers.caption_frames example_backends frames g1).1
            = Err ZeroDivisionError)
     ∨ analyze_emotions wrapped_env "video.mp4" 1 = Err ZeroDivisionError).
Proof.
  split; [reflexivity|].
  apply (analyze_video_failure example_backends wrapped_env "video.mp4" "small" 0
           (6 # 10) 1 no_models ZeroDivisionError).
  reflexivity.
Defined.

Lemma process_video_task_as_analyze_video_witness :
  (process_video_task wrapped_env (fun _ _ => Ok tt) "video.mp4" uploaded_world).1
  = (Wrappers.analyze_video example_backends wrapped_env "video.mp4" "small" 1
       (6 # 10) 1 no_models).1.
Proof.
  apply (process_video_task_as_analyze_video example_backends wrapped_env
           (fun _ _ => Ok tt) "video.mp4" uploaded_world no_models);
    [reflexivity | reflexivity | reflexivity | reflexivity
    | intros frames; reflexivity].
Defined.

(** ** More on the failures of the segmenter and on the emotion records *)

(** X24: the segmenter raises in one case only, a frame rate of 0 with
    at least one caption, and what it raises then is the division by
    zero; with no caption it returns even at a frame rate of 0. *)
Theorem categorize_scenes_raises caps threshold max_gap fps e :
  categorize_scenes caps threshold max_gap fps = Err e
  ↔ e = ZeroDivisionError ∧ caps ≠ [] ∧ (fps == 0)%Q.
Proof.
  split.
  - intros He. destruct (decide (caps = [])) as [->|Hne]; [done|].
    destruct (Qeq_dec fps 0) as [H0|Hn0].
    + rewrite (categorize_scenes_zero_fps caps threshold max_gap fps Hne H0) in He.
      by injection He as <-.
    + destruct (categorize_scenes_returns caps threshold max_gap fps Hn0)
        as [scs Hs]. congruence.
  - intros (-> & Hne & H0). by apply categorize_scenes_zero_fps.
Qed.

Lemma emotion_loop_shape {Frame Image : Type} (env : collaborators Frame Image)
    (c : clip Frame) (times : list Q) : ∀ emotions res,
  emotion_loop env c times emotions = Ok res →
  ∃ records,
    res = emotions ++ records
    ∧ time <$> records = times
    ∧ Forall (fun r =>
                (num_faces r = 1 ∧ error r = None)
                ∨ (dominant_emotion r = "error" ∧ emotion_scores r = ∅
                   ∧ num_faces r = 0 ∧ is_Some (error r))) records.
Proof.
  induction times as [|t times IH]; intros emotions res Hl; simpl in Hl.
  - injection Hl as <-. exists []. by rewrite app_nil_r.
  - destruct (get_frame c t) as [frame|]; [|done]. simpl in Hl.
    destruct (resize_to_image env frame) as [image|]; [|done]. simpl in Hl.
    destruct (IH _ _ Hl) as (records & -> & Ht & Hall).
    eexists (_ :: records). rewrite <- app_assoc. split; [done|].
    split.
    + rewrite fmap_cons, Ht. by destruct (classify env image) as [[??]|].
    + constructor; [|done].
      destruct (classify env image) as [[??]|]; [by left | right; eauto].
Qed.

(** X25: when the emotion stage returns, the times of its records are
    the sampling grid of the clip, in order, and every record is either
    a classification, with one face and no error field, or the error
    record: "error", no scores, no face and the description of the
    failure. *)
Theorem analyze_emotions_records {Frame Image : Type}
    (env : collaborators Frame Image) (video_path : string) (sample_rate : Q)
    (records : list emotion_sample) :
  analyze_emotions env video_path sample_rate = Ok records →
  ∃ c, VideoFileClip env video_path = Ok c
       ∧ np_arange (duration c) sample_rate = Ok (time <$> records)
       ∧ Forall (fun r =>
                   (num_faces r = 1 ∧ error r = None)
                   ∨ (dominant_emotion r = "error" ∧ emotion_scores r = ∅
                      ∧ num_faces r = 0 ∧ is_Some (error r))) records.
Proof.
  unfold analyze_emotions. intros H.
  destruct (get_emotion_model env) as [[]|]; [|done]. simpl in H.
  destruct (VideoFileClip env video_path) as [c|]; [|done]. simpl in H.
  destruct (np_arange (duration c) sample_rate) as [times|] eqn:Ht; [|done].
  simpl in H.
  destruct (emotion_loop_shape env c times [] records H) as (recs & -> & <- & Hall).
  exists c. by rewrite app_nil_l.
Qed.

Lemma analyze_emotions_records_witness :
  ∃ records c,
    analyze_emotions failing_classifier_env "video.mp4" 1 = Ok records
    ∧ VideoFileClip failing_classifier_env "video.mp4" = Ok c
    ∧ np_arange (duration c) 1 = Ok (time <$> records).
Proof.
  eexists.
  destruct (analyze_emotions_records failing_classifier_env "video.mp4" 1 _ eq_refl)
    as (c & Hc & Ht & _).
  exists c. split; [reflexivity|]. split; [exact Hc | exact Ht].
Defined.
